(** * ReadTheLips: the media-to-transcript pipeline of [app.py]

    A shallow embedding of [process_and_transcribe], [diarize_with_gpt4],
    [transcribe_chunk], [get_file_size_mb] and of the upload handler of
    [app.py], with the properties the specification states about them.

    Modelling conventions.
    - Python [int] is [Z].
    - A Python [float] (file size in MB, clip duration, chunk end time,
      progress fraction) is a binary64 number, kept as the rational [Q] it
      denotes.  Every operation of lines 86-189 that rounds is rounded to
      the nearest binary64 number, ties to even ([nearest_double]), and
      raises what Python raises: [ZeroDivisionError] on a zero divisor,
      [OverflowError] or [ValueError] when an infinity or a NaN is
      converted to an integer.  The sign of a zero is not kept; nothing in
      the program depends on it.
    - moviepy's [duration] is taken to be a finite number and
      [os.path.getsize] to answer an [off_t], below [2^63].
    - Python [str] is [string]; [None | str] is [option string].
    - Every call that leaves the program (moviepy, the file system, the
      OpenAI client) is a [call]; the environment answers it
      with a value or with a raised exception, as a function of everything
      that happened before.  Streamlit widget calls, [print] and
      [time.sleep] are output events that always succeed.
    - Only exceptions deriving from [Exception] are modelled. *)

From Stdlib Require Import ZArith QArith Qround Qabs Qpower Qreduction Qcanon.
From Stdlib Require Import Lqa Lia List String Ascii Bool DecimalString.
From Stdlib Require Import Floats.SpecFloat.
Import ListNotations.

Set Implicit Arguments.


Local Open Scope Z_scope.

(** ** Exceptions *)

Inductive exn_kind := AttributeError | PermissionError | OtherException.

(** A raised exception: its class, as far as the program tells classes
    apart (lines 138, 250, 252), and [str(e)]. *)
Record exn := Exn { kind : exn_kind; message : string }.

Definition is_AttributeError (e : exn) : bool :=
  match kind e with AttributeError => true | _ => false end.

Definition is_PermissionError (e : exn) : bool :=
  match kind e with PermissionError => true | _ => false end.

(** The arithmetic errors of Python; the program tells none of them from
    any other exception. *)
Definition ZeroDivisionError (text : string) : exn := Exn OtherException text.
Definition OverflowError (text : string) : exn := Exn OtherException text.
Definition ValueError (text : string) : exn := Exn OtherException text.

(** ** binary64 arithmetic, as Python's [float] has it *)

Module Binary64.

Local Open Scope Q_scope.

(** [2^e], for any integer [e]. *)
Definition pow2 (e : Z) : Q := 2 ^ e.

(** The integer part of the binary logarithm of a positive rational. *)
Definition log2_floor (q : Q) : Z :=
  let l := (Z.log2 (Qnum q) - Z.log2 (Zpos (Qden q)))%Z in
  if Qle_bool (pow2 l) q then l else (l - 1)%Z.

(** The nearest integer, the even one of two that are equally near. *)
Definition round_half_even (q : Q) : Z :=
  let f := Qfloor q in
  match Qcompare (q - inject_Z f) (1 # 2) with
  | Lt => f
  | Gt => (f + 1)%Z
  | Eq => if Z.even f then f else (f + 1)%Z
  end.

(** The exponent of the last place of the binary64 numbers around [q]:
    53 significant bits, and [2^-1074] the smallest positive number. *)
Definition last_place (q : Q) : Z :=
  Z.max (log2_floor (Qabs q) - 52) (-1074).

(** The binary64 number nearest to [q], ties to even, before the test for
    overflow; in lowest terms. *)
Definition nearest_double (q : Q) : Q :=
  if Qeq_bool q 0 then 0
  else let e := last_place q in
       Qred (inject_Z (round_half_even (q / pow2 e)) * pow2 e).

(** The rationals [m * 2^e] with [|m| <= 2^53] and [e >= -1074]: at most
    53 significant bits, and no bit below [2^-1074].  Those below [2^1024]
    in magnitude are the finite binary64 numbers. *)
Definition representable (x : Q) : Prop :=
  exists m e, x == inject_Z m * pow2 e /\ (Z.abs m <= 2 ^ 53)%Z /\ (-1074 <= e)%Z.

Definition binary64 (x : Q) : Prop := representable x /\ Qabs x < pow2 1024.

(** What a floating-point operation can give. *)
Inductive float := finite (q : Q) | infinity (negative : bool) | nan.

Definition is_negative (q : Q) : bool := negb (Qle_bool 0 q).

(** The result of an operation whose exact value is [q]: rounded, and an
    infinity when the rounded value reaches [2^1024]. *)
Definition to_float (q : Q) : float :=
  let r := nearest_double q in
  if Qle_bool (pow2 1024) (Qabs r) then infinity (is_negative q) else finite r.

(** [a / b] for two finite floats. *)
Definition float_truediv (a b : Q) : exn + float :=
  if Qeq_bool b 0 then inl (ZeroDivisionError "float division by zero"%string)
  else inr (to_float (a / b)).

(** [a * b] for a finite [b]. *)
Definition float_mul (a : float) (b : Q) : float :=
  match a with
  | finite x => to_float (x * b)
  | infinity negative =>
      if Qeq_bool b 0 then nan else infinity (xorb negative (is_negative b))
  | nan => nan
  end.

Definition to_integer (round : Q -> Z) (x : float) : exn + Z :=
  match x with
  | finite q => inr (round q)
  | infinity _ => inl (OverflowError "cannot convert float infinity to integer"%string)
  | nan => inl (ValueError "cannot convert float NaN to integer"%string)
  end.

Definition math_floor : float -> exn + Z := to_integer Qfloor.
Definition math_ceil : float -> exn + Z := to_integer Qceiling.

(** An [int] where a [float] is wanted. *)
Definition float_of_int (z : Z) : exn + Q :=
  match to_float (inject_Z z) with
  | finite q => inr q
  | _ => inl (OverflowError "int too large to convert to float"%string)
  end.

(** A binary64 number in the representation of the Standard Library's
    specification of IEEE 754, and back; used to compare [nearest_double]
    with that specification. *)
Definition to_spec (q : Q) : spec_float :=
  if Qeq_bool q 0 then S754_zero false
  else match Qfloor (Qabs q / pow2 (last_place q)) with
       | Zpos m => S754_finite (is_negative q) m (last_place q)
       | _ => S754_nan
       end.

Definition of_spec (x : spec_float) : float :=
  match x with
  | S754_zero _ => finite 0
  | S754_infinity negative => infinity negative
  | S754_nan => nan
  | S754_finite negative m e =>
      finite (Qred ((if negative then -1 else 1) * inject_Z (Zpos m) * pow2 e))
  end.

End Binary64.

(** ** Chunk planning: the arithmetic of lines 151-173 *)

Module Plan.

Import Binary64.

Local Open Scope Q_scope.

Definition OPENAI_LIMIT_MB : Q := 25.
Definition SAFETY_BUFFER_MB : Q := 20.

(** [os.path.getsize(file_path) / (1024 * 1024)]: the quotient of two
    [int]s, correctly rounded; it cannot overflow for an [off_t]. *)
Definition get_file_size_mb (size_bytes : N) : Q :=
  nearest_double (inject_Z (Z.of_N size_bytes) / inject_Z (1024 * 1024)).

(** [min(a, b)] of Python: [b] when [b < a], else [a]. *)
Definition py_min (a b : Q) : Q := if Qle_bool a b then a else b.

(** Lines 164-165: a division and a product, each rounded, then the floor
    and the maximum. *)
Definition chunk_duration (file_size_mb duration : Q) : exn + Z :=
  match float_truediv SAFETY_BUFFER_MB file_size_mb with
  | inl e => inl e
  | inr ratio =>
      match math_floor (float_mul ratio duration) with
      | inl e => inl e
      | inr seconds => inr (Z.max 10 seconds)
      end
  end.

(** Line 167: the [int] becomes a [float], the quotient is rounded. *)
Definition num_chunks (duration : Q) (chunk_duration : Z) : exn + Z :=
  match float_of_int chunk_duration with
  | inl e => inl e
  | inr divisor =>
      match float_truediv duration divisor with
      | inl e => inl e
      | inr quotient => math_ceil quotient
      end
  end.

(** [range(n)]: empty when [n <= 0]. *)
Definition range (n : Z) : list Z := map Z.of_nat (seq 0 (Z.to_nat n)).

(** Lines 172-173: products of [int]s are exact, and so is the comparison
    of an [int] with a [float]. *)
Definition start_time (i chunk_duration : Z) : Z := (i * chunk_duration)%Z.
Definition end_time (i chunk_duration : Z) (duration : Q) : Q :=
  py_min (inject_Z ((i + 1) * chunk_duration)) duration.

(** The [(start_time, end_time)] pairs the loop of line 171 hands to
    [audio.subclip], in iteration order. *)
Definition chunk_specs (cd : Z) (duration : Q) (n : Z) : list (Z * Q) :=
  map (fun i => (start_time i cd, end_time i cd duration)) (range n).

(** Lines 164-173 as a whole. *)
Definition chunk_plan (file_size_mb duration : Q) : exn + list (Z * Q) :=
  match chunk_duration file_size_mb duration with
  | inl e => inl e
  | inr cd =>
      match num_chunks duration cd with
      | inl e => inl e
      | inr n => inr (chunk_specs cd duration n)
      end
  end.

(** Line 189: [(i + 1) / num_chunks], the quotient of two [int]s,
    correctly rounded; in the loop [0 < i + 1 <= num_chunks]. *)
Definition progress_fraction (i num_chunks : Z) : Q :=
  nearest_double (inject_Z (i + 1) / inject_Z num_chunks).

(** Properties of a plan, as the data model states them. *)
Definition nonempty_ranges (plan : list (Z * Q)) : Prop :=
  forall i s e, nth_error plan i = Some (s, e) -> inject_Z s < e.

Definition contiguous (plan : list (Z * Q)) : Prop :=
  forall i s e s' e',
    nth_error plan i = Some (s, e) ->
    nth_error plan (S i) = Some (s', e') -> e == inject_Z s'.

Definition non_overlapping (plan : list (Z * Q)) : Prop :=
  forall i j s e s' e',
    (i < j)%nat ->
    nth_error plan i = Some (s, e) ->
    nth_error plan j = Some (s', e') -> e <= inject_Z s'.

Definition starts_at_zero (plan : list (Z * Q)) : Prop :=
  exists e rest, plan = (0%Z, e) :: rest.

Definition ends_at (plan : list (Z * Q)) (duration : Q) : Prop :=
  exists front s e, plan = front ++ [(s, e)] /\ e == duration.

Definition covers (plan : list (Z * Q)) (duration : Q) : Prop :=
  forall t : Q,
    (0 <= t /\ t < duration) <->
    (exists s e, In (s, e) plan /\ inject_Z s <= t /\ t < e).

End Plan.

(** ** The outside world: calls, events *)

(** The calls the program makes to its libraries, indexed by the type of
    the value a call answers when it does not raise. *)
Inductive call : Type -> Type :=
| VideoFileClip (path : string) : call unit
| video_write_audiofile (path : string) (logger_none : bool) : call unit
| video_close : call unit
| os_path_exists (path : string) : call bool
| os_path_getsize (path : string) : call N
| AudioFileClip (path : string) : call Q
| audio_subclip (t_start : Z) (t_end : Q) : call unit
| subclip_write_audiofile (path : string) : call unit
| subclip_close : call unit
| audio_close : call unit
| transcriptions_create (path : string) : call string
| chat_completions_create (transcript_text : string) : call string
| os_remove (path : string) : call unit.

(** Output that always succeeds: Streamlit widgets, [print], [time.sleep]. *)
Inductive output :=
| info_extracting
| info_small (file_size_mb : Q)
| info_large (file_size_mb : Q)
| info_labeling
| progress (fraction : Q)
| progress_empty
| st_error (text : string)
| success_done
| print (text : string)
| sleep (seconds : Q)
| show_transcript (text : string)
| download_button (data : string).

Inductive event :=
| Called (R : Type) (c : call R) (r : exn + R)
| Out (o : output).

Arguments Called {R} c r.

(** The environment: how a call is answered after a given history (oldest
    event first), and the one pure library function whose result the
    program branches on, [os.path.splitext(p)[1].lower()]. *)
Record Env := {
  respond : forall R, list event -> call R -> exn + R;
  splitext_lower : string -> string
}.

(** ** A monad for function bodies

    A computation reads the history (every event so far, oldest first) and
    the local variables of the running function; it answers a value or a
    raised exception, the local variables as they are then (a list or string
    updated before a [raise] stays updated), and the events it added. *)

Record outcome (L A : Type) := Outcome {
  result : exn + A;
  vars : L;
  events : list event
}.

Arguments Outcome {L A} result vars events.

Definition M (L A : Type) : Type := Env -> list event -> L -> outcome L A.

Section Monad.

Context {L : Type}.

Definition ret {A} (a : A) : M L A := fun _ _ l => Outcome (inr a) l [].

Definition raise {A} (e : exn) : M L A := fun _ _ l => Outcome (inl e) l [].

(** A computation that touches nothing: its value, or what it raises. *)
Definition lift {A} (r : exn + A) : M L A := fun _ _ l => Outcome r l [].

(** An outcome reached after the events [evs]. *)
Definition after {A} (evs : list event) (o : outcome L A) : outcome L A :=
  Outcome (result o) (vars o) (evs ++ events o).

Definition bind {A B} (m : M L A) (k : A -> M L B) : M L B :=
  fun env h l =>
    let o := m env h l in
    match result o with
    | inl e => Outcome (inl e) (vars o) (events o)
    | inr a => after (events o) (k a env (h ++ events o) (vars o))
    end.

(** [try: m  except Exception as e: handler e] *)
Definition try_except {A} (m : M L A) (handler : exn -> M L A) : M L A :=
  fun env h l =>
    let o := m env h l in
    match result o with
    | inl e => after (events o) (handler e env (h ++ events o) (vars o))
    | inr a => o
    end.

(** Make a call: ask the environment, record the call with its answer. *)
Definition perform {R} (c : call R) : M L R :=
  fun env h l => let r := respond env h c in Outcome r l [Called c r].

Definition emit (o : output) : M L unit := fun _ _ l => Outcome (inr tt) l [Out o].

Definition the_env : M L Env := fun env _ l => Outcome (inr env) l [].

Definition get_vars : M L L := fun _ _ l => Outcome (inr l) l [].

Definition set_vars (l : L) : M L unit := fun _ _ _ => Outcome (inr tt) l [].

(** [os.path.exists] answers [False] instead of raising. *)
Definition exists_answer (r : exn + bool) : bool :=
  match r with inl _ => false | inr b => b end.

Definition path_exists (p : string) : M L bool :=
  fun env h l =>
    let r := respond env h (os_path_exists p) in
    Outcome (inr (exists_answer r)) l [Called (os_path_exists p) r].

End Monad.

Declare Scope pipeline_scope.
Delimit Scope pipeline_scope with pipeline.
Notation "x <- m ;; k" := (bind m (fun x => k))
  (at level 61, m at next level, right associativity) : pipeline_scope.
Notation "m ;; k" := (bind m (fun _ => k))
  (at level 61, right associativity) : pipeline_scope.
Local Open Scope pipeline_scope.

(** [for x in xs: body x] *)
Fixpoint for_each {L X} (xs : list X) (body : X -> M L unit) : M L unit :=
  match xs with
  | [] => ret tt
  | x :: rest => body x ;; for_each rest body
  end.

(** ** The functions of [app.py] *)

Local Open Scope string_scope.

(** [f"{i}"] for an [int]. *)
Definition str_of_int (i : Z) : string := NilZero.string_of_int (Z.to_int i).

(** Truth value of a [None | str] in an [if]. *)
Definition truthy (v : option string) : bool :=
  match v with
  | None => false
  | Some t => negb (t =? EmptyString)
  end.

(** [transcribe_chunk] (lines 88-96): open the file, one request. *)
Definition transcribe_chunk {L} (file_path : string) : M L string :=
  perform (transcriptions_create file_path).

(** [diarize_with_gpt4] (lines 98-112). *)
Definition diarize_with_gpt4 {L} (transcript_text : string) : M L string :=
  try_except
    (perform (chat_completions_create transcript_text))
    (fun e =>
       emit (st_error ("Diarization error: " ++ message e)) ;;
       ret transcript_text).

(** The local variables of [process_and_transcribe] that are mutated in
    place (lines 119-120). *)
Record locals := Locals {
  temp_files_to_cleanup : list string;
  full_transcript : string
}.

(** [temp_files_to_cleanup.append(f)] *)
Definition register (f : string) : M locals unit :=
  l <- get_vars ;;
  set_vars (Locals (temp_files_to_cleanup l ++ [f]) (full_transcript l)).

(** [full_transcript = t] *)
Definition assign_full_transcript (t : string) : M locals unit :=
  l <- get_vars ;;
  set_vars (Locals (temp_files_to_cleanup l) t).

Definition VIDEO_EXTENSIONS : list string := [".mp4"; ".mov"; ".avi"; ".mkv"].

Definition str_in (x : string) (xs : list string) : bool :=
  existsb (String.eqb x) xs.

(** Lines 134-146: write the audio track, with the fallback of the
    [except AttributeError] branch. *)
Definition extract_audio (input_path audio_path : string) : M locals unit :=
  try_except
    (perform (VideoFileClip input_path) ;;
     perform (video_write_audiofile audio_path true) ;;
     perform video_close)
    (fun e =>
       if is_AttributeError e then
         present <- path_exists audio_path ;;
         if negb present then
           perform (VideoFileClip input_path) ;;
           perform (video_write_audiofile audio_path false) ;;
           perform video_close
         else ret tt
       else raise e).

(** Lines 124-148: the working audio artifact. *)
Definition working_audio (input_path : string) : M locals string :=
  env <- the_env ;;
  let file_ext := splitext_lower env input_path in
  if str_in file_ext VIDEO_EXTENSIONS then
    emit info_extracting ;;
    let audio_path := input_path ++ ".mp3" in
    extract_audio input_path audio_path ;;
    register audio_path ;;
    ret audio_path
  else ret input_path.

(** [f"{audio_path}_part_{i}.mp3"] (line 175) *)
Definition chunk_filename (audio_path : string) (i : Z) : string :=
  audio_path ++ "_part_" ++ str_of_int i ++ ".mp3".

(** Lines 172-189: one iteration of the chunk loop. *)
Definition chunk_step (audio_path : string) (chunk_duration : Z)
    (duration : Q) (num_chunks : Z) (i : Z) : M locals unit :=
  let start_time := Plan.start_time i chunk_duration in
  let end_time := Plan.end_time i chunk_duration duration in
  let chunk_file := chunk_filename audio_path i in
  register chunk_file ;;
  perform (audio_subclip start_time end_time) ;;
  perform (subclip_write_audiofile chunk_file) ;;
  perform subclip_close ;;
  chunk_text <- transcribe_chunk chunk_file ;;
  l <- get_vars ;;
  assign_full_transcript (full_transcript l ++ (chunk_text ++ " ")) ;;
  emit (progress (Plan.progress_fraction i num_chunks)).

(** Lines 159-192: the chunking path. *)
Definition transcribe_in_chunks (audio_path : string) (file_size_mb : Q)
    : M locals unit :=
  emit (info_large file_size_mb) ;;
  duration <- perform (AudioFileClip audio_path) ;;
  chunk_duration <- lift (Plan.chunk_duration file_size_mb duration) ;;
  num_chunks <- lift (Plan.num_chunks duration chunk_duration) ;;
  emit (progress 0) ;;
  for_each (Plan.range num_chunks)
    (chunk_step audio_path chunk_duration duration num_chunks) ;;
  perform audio_close ;;
  emit progress_empty.

(** Lines 151-192: size check and the two transcription paths. *)
Definition size_and_transcribe (audio_path : string) : M locals unit :=
  size_bytes <- perform (os_path_getsize audio_path) ;;
  let file_size_mb := Plan.get_file_size_mb size_bytes in
  if Qle_bool file_size_mb Plan.OPENAI_LIMIT_MB then
    emit (info_small file_size_mb) ;;
    text <- transcribe_chunk audio_path ;;
    assign_full_transcript text
  else transcribe_in_chunks audio_path file_size_mb.

(** Lines 123-192: the body of the [try]. *)
Definition try_body (input_path : string) : M locals unit :=
  audio_path <- working_audio input_path ;;
  size_and_transcribe audio_path.

(** Lines 200-204: one file of the [finally] loop. *)
Definition remove_quietly (f : string) : M locals unit :=
  present <- path_exists f ;;
  if present then try_except (perform (os_remove f)) (fun _ => ret tt)
  else ret tt.

(** Lines 199-204: the [finally] block. *)
Definition cleanup : M locals unit :=
  l <- get_vars ;;
  for_each (temp_files_to_cleanup l) remove_quietly.

(** [process_and_transcribe] (lines 114-206).  It has its own local
    variables; the caller's are untouched. *)
Definition process_and_transcribe {L} (input_path : string)
    : M L (option string) :=
  fun env h l =>
    let body := try_body input_path env h (Locals [] EmptyString) in
    match result body with
    | inl e =>
        let fin :=
          (emit (st_error ("An error occurred: " ++ message e)) ;; cleanup)
            env (h ++ events body)%list (vars body) in
        Outcome (inr None) l (events body ++ events fin)
    | inr _ =>
        let fin := cleanup env (h ++ events body)%list (vars body) in
        Outcome (inr (Some (full_transcript (vars body)))) l
                (events body ++ events fin)
    end.

(** Lines 244-254 (and 286-296): deletion of the uploaded temp file,
    [attempts] iterations of the [for] loop left. *)
Fixpoint delete_with_retries {L} (attempts : nat) (path : string) : M L unit :=
  match attempts with
  | O => ret tt
  | S more =>
      try_except
        (perform (os_remove path))
        (fun e =>
           if is_PermissionError e then
             emit (sleep 1) ;;
             delete_with_retries more path
           else emit (print ("Error deleting temp file: " ++ message e)))
  end.

Definition max_retries : nat := 3.

(** Lines 234-263: the upload handler once the upload is saved at
    [tmp_file_path]; answers the new value of [transcript_result].  The
    test of line 237 is false: no [video] is bound at module level. *)
Definition upload_handler (tmp_file_path : string) (enable_diarization : bool)
    : M unit (option string) :=
  raw_transcript <- process_and_transcribe tmp_file_path ;;
  present <- path_exists tmp_file_path ;;
  (if present then delete_with_retries max_retries tmp_file_path else ret tt) ;;
  match raw_transcript with
  | Some text =>
      if truthy raw_transcript then
        transcript_result <-
          (if enable_diarization then
             emit info_labeling ;;
             diarize_with_gpt4 text
           else ret text) ;;
        emit success_done ;;
        ret (Some transcript_result)
      else ret None
  | None => ret None
  end.

(** The double-quote character, as a string. *)
Definition dquote : string := String (ascii_of_nat 34) EmptyString.

(** [s.replace(chr(10), br)] with [br] the HTML line break (line 312). *)
Fixpoint replace_newlines (s : string) : string :=
  match s with
  | EmptyString => EmptyString
  | String c rest =>
      if Ascii.eqb c "010"%char then "<br>" ++ replace_newlines rest
      else String c (replace_newlines rest)
  end.

(** Lines 307-322: the results block. *)
Definition display_results (transcript_result : option string) : M unit unit :=
  match transcript_result with
  | Some text =>
      if truthy transcript_result then
        emit (show_transcript
                ("<div class=" ++ dquote ++ "transcript-box" ++ dquote ++ ">"
                 ++ replace_newlines text ++ "</div>")) ;;
        emit (download_button text)
      else ret tt
  | None => ret tt
  end.

(** One press of "Transcribe File": handler, then the results block. *)
Definition upload_run (tmp_file_path : string) (enable_diarization : bool)
    : M unit (option string) :=
  transcript_result <- upload_handler tmp_file_path enable_diarization ;;
  display_results transcript_result ;;
  ret transcript_result.

(** ** Observations on a run's events *)

(** The events of [evs] that [f] selects, in order. *)
Definition pick {X} (f : event -> option X) (evs : list event) : list X :=
  flat_map (fun ev => match f ev with Some x => [x] | None => [] end) evs.

(** A request to the transcription service, answered or not: its file. *)
Definition transcription_request (ev : event) : option string :=
  match ev with
  | Called c _ => match c with transcriptions_create p => Some p | _ => None end
  | Out _ => None
  end.

(** The text of an answered transcription request. *)
Definition transcription_text (ev : event) : option string :=
  match ev with
  | Called c r =>
      match c in call R return exn + R -> option string with
      | transcriptions_create _ =>
          fun r => match r with inr text => Some text | inl _ => None end
      | _ => fun _ => None
      end r
  | Out _ => None
  end.

(** Chunk planning and extraction: opening the clip for its duration,
    cutting a sub-clip, writing it. *)
Definition planning_request (ev : event) : option unit :=
  match ev with
  | Called c _ =>
      match c with
      | AudioFileClip _ | audio_subclip _ _ | subclip_write_audiofile _ => Some tt
      | _ => None
      end
  | Out _ => None
  end.

(** The [(start_time, end_time)] of a requested sub-clip. *)
Definition subclip_request (ev : event) : option (Z * Q) :=
  match ev with
  | Called c _ => match c with audio_subclip s e => Some (s, e) | _ => None end
  | Out _ => None
  end.

(** The file an [os.path.getsize] measured, with the byte size it answered. *)
Definition sized_file (ev : event) : option (string * N) :=
  match ev with
  | Called c r =>
      match c in call R return exn + R -> option (string * N) with
      | os_path_getsize p =>
          fun r => match r with inr n => Some (p, n) | inl _ => None end
      | _ => fun _ => None
      end r
  | Out _ => None
  end.

(** The duration an opened [AudioFileClip] has. *)
Definition measured_duration (ev : event) : option Q :=
  match ev with
  | Called c r =>
      match c in call R return exn + R -> option Q with
      | AudioFileClip _ =>
          fun r => match r with inr d => Some d | inl _ => None end
      | _ => fun _ => None
      end r
  | Out _ => None
  end.

(** An [audio.close()] that raised. *)
Definition failed_audio_close (ev : event) : option exn :=
  match ev with
  | Called c r =>
      match c in call R return exn + R -> option exn with
      | audio_close => fun r => match r with inl e => Some e | inr _ => None end
      | _ => fun _ => None
      end r
  | Out _ => None
  end.

(** An [os.remove] request, answered or not: its file. *)
Definition removal_request (ev : event) : option string :=
  match ev with
  | Called c _ => match c with os_remove p => Some p | _ => None end
  | Out _ => None
  end.

(** What the user is shown as an error. *)
Definition error_shown (ev : event) : option string :=
  match ev with
  | Out (st_error text) => Some text
  | _ => None
  end.

(** Transcript output: the transcript box, the download button, "Done!". *)
Definition transcript_output (ev : event) : option unit :=
  match ev with
  | Out (show_transcript _) | Out (download_button _) | Out success_done => Some tt
  | _ => None
  end.

(** [evs] is what the [finally] loop does on [files]: for each file in
    order an existence test and, when it answers true, one [os.remove]. *)
Fixpoint removal_attempts (files : list string) (evs : list event) : Prop :=
  match files with
  | [] => evs = []
  | f :: rest =>
      exists r tail,
        evs = Called (os_path_exists f) r :: tail /\
        if exists_answer r
        then exists r' tail', tail = Called (os_remove f) r' :: tail' /\
                              removal_attempts rest tail'
        else removal_attempts rest tail
  end.

(** [" ".join(texts)] *)
Fixpoint join_with_space (texts : list string) : string :=
  match texts with
  | [] => EmptyString
  | [t] => t
  | t :: rest => t ++ " " ++ join_with_space rest
  end.

(** Each text followed by one space, all concatenated. *)
Fixpoint each_followed_by_space (texts : list string) : string :=
  match texts with
  | [] => EmptyString
  | t :: rest => t ++ " " ++ each_followed_by_space rest
  end.

(** ** Which events a computation may add *)

Definition only {L A} (allowed : event -> bool) (m : M L A) : Prop :=
  forall env h l, forallb allowed (events (m env h l)) = true.

(** A computation that leaves a component of the local variables alone. *)
Definition keeps {L A X} (f : L -> X) (m : M L A) : Prop :=
  forall env h l, f (vars (m env h l)) = f l.

(** Events of the audio-extraction stage (lines 129-146). *)
Definition extraction_event (ev : event) : bool :=
  match ev with
  | Called c _ =>
      match c with
      | VideoFileClip _ | video_write_audiofile _ _ | video_close
      | os_path_exists _ => true
      | _ => false
      end
  | Out info_extracting => true
  | Out _ => false
  end.

(** Events of the chunking path (lines 159-192). *)
Definition chunking_event (ev : event) : bool :=
  match ev with
  | Called c _ =>
      match c with
      | AudioFileClip _ | audio_subclip _ _ | subclip_write_audiofile _
      | subclip_close | audio_close | transcriptions_create _ => true
      | _ => false
      end
  | Out (info_large _) | Out (progress _) | Out progress_empty => true
  | Out _ => false
  end.

(** Events of the [finally] block (lines 199-204). *)
Definition cleanup_event (ev : event) : bool :=
  match ev with
  | Called c _ =>
      match c with os_path_exists _ | os_remove _ => true | _ => false end
  | Out _ => false
  end.

(** Events of one iteration of the chunk loop (lines 172-189). *)
Definition chunk_step_event (ev : event) : bool :=
  match ev with
  | Called c _ =>
      match c with
      | audio_subclip _ _ | subclip_write_audiofile _ | subclip_close
      | transcriptions_create _ => true
      | _ => false
      end
  | Out (progress _) => true
  | Out _ => false
  end.

(** Events of the deletion loop of the handler (lines 246-254). *)
Definition deletion_event (ev : event) : bool :=
  match ev with
  | Called c _ => match c with os_remove _ => true | _ => false end
  | Out (sleep _) | Out (print _) => true
  | Out _ => false
  end.

(** Events of the [try] body (lines 123-192). *)
Definition body_event (ev : event) : bool :=
  match ev with
  | Called c _ =>
      match c with
      | chat_completions_create _ | os_remove _ => false
      | _ => true
      end
  | Out info_extracting | Out (info_small _) | Out (info_large _)
  | Out (progress _) | Out progress_empty => true
  | Out _ => false
  end.

(** Events of [process_and_transcribe]: none shows a transcript. *)
Definition pipeline_event (ev : event) : bool :=
  match ev with
  | Called c _ =>
      match c with chat_completions_create _ => false | _ => true end
  | Out info_extracting | Out (info_small _) | Out (info_large _)
  | Out (progress _) | Out progress_empty | Out (st_error _) => true
  | Out _ => false
  end.

(** The exception a call of the sizing, chunking or transcription stage
    raised. *)
Definition stage_failure (ev : event) : option exn :=
  match ev with
  | Called c r =>
      match c in call R return exn + R -> option exn with
      | os_path_getsize _ | AudioFileClip _ | audio_subclip _ _
      | subclip_write_audiofile _ | subclip_close | audio_close
      | transcriptions_create _ =>
          fun r => match r with inl e => Some e | inr _ => None end
      | _ => fun _ => None
      end r
  | Out _ => None
  end.

(** An [os.remove] with its file and whether it succeeded. *)
Definition removal_result (ev : event) : option (string * bool) :=
  match ev with
  | Called c r =>
      match c in call R return exn + R -> option (string * bool) with
      | os_remove p =>
          fun r => Some (p, match r with inr _ => true | inl _ => false end)
      | _ => fun _ => None
      end r
  | Out _ => None
  end.

(** ** Scenarios: concrete environments *)

Definition unavailable : exn := Exn OtherException "service unavailable".
Definition in_use : exn := Exn PermissionError "file in use".

(** Every call succeeds; the working audio has [size] bytes and lasts
    [duration] seconds; a file transcribes to its own name in brackets. *)
Definition calm (size : N) (duration : Q) R (h : list event) (c : call R)
    : exn + R :=
  match c in call R return exn + R with
  | VideoFileClip _ => inr tt
  | video_write_audiofile _ _ => inr tt
  | video_close => inr tt
  | os_path_exists _ => inr true
  | os_path_getsize _ => inr size
  | AudioFileClip _ => inr duration
  | audio_subclip _ _ => inr tt
  | subclip_write_audiofile _ => inr tt
  | subclip_close => inr tt
  | audio_close => inr tt
  | transcriptions_create p => inr ("[" ++ p ++ "]")
  | chat_completions_create t => inr ("Speaker 1: " ++ t)
  | os_remove _ => inr tt
  end.

Definition MB : N := 1048576.

(** An audio upload in a calm world. *)
Definition audio_world (size : N) (duration : Q) : Env :=
  Build_Env (calm size duration) (fun _ => ".mp3").

(** A video upload in a calm world. *)
Definition video_world (size : N) (duration : Q) : Env :=
  Build_Env (calm size duration) (fun _ => ".mp4").

(** The text-generation service is down. *)
Definition chat_down : Env :=
  Build_Env
    (fun R h c =>
       match c in call R return exn + R with
       | chat_completions_create _ => inl unavailable
       | c' => calm (10 * MB) 600 h c'
       end)
    (fun _ => ".mp3").

(** A small video whose transcription request is refused. *)
Definition transcription_down : Env :=
  Build_Env
    (fun R h c =>
       match c in call R return exn + R with
       | transcriptions_create _ => inl unavailable
       | c' => calm (10 * MB) 600 h c'
       end)
    (fun _ => ".mp4").

(** A large video (30 MB, 25 s: two chunks) where the transcription service
    goes down after its first answer. *)
Definition outage_after_first_chunk : Env :=
  Build_Env
    (fun R h c =>
       match c in call R return exn + R with
       | transcriptions_create p =>
           match pick transcription_request h with
           | [] => inr ("[" ++ p ++ "]")
           | _ => inl unavailable
           end
       | c' => calm (30 * MB) 25 h c'
       end)
    (fun _ => ".mp4").

(** A large audio (30 MB, 25 s: two chunks) where every file is locked the
    first time its removal is asked for, and free the next time. *)
Definition locked_once : Env :=
  Build_Env
    (fun R h c =>
       match c in call R return exn + R with
       | os_remove p =>
           if str_in p (pick removal_request h) then inr tt else inl in_use
       | c' => calm (30 * MB) 25 h c'
       end)
    (fun _ => ".mp3").

(** ** Further observations and the page around the pipeline *)

(** A request to write the audio track of a video: the file and whether
    [logger=None] was passed. *)
Definition audio_write_request (ev : event) : option (string * bool) :=
  match ev with
  | Called c _ =>
      match c with
      | video_write_audiofile p quiet => Some (p, quiet)
      | _ => None
      end
  | Out _ => None
  end.

(** Any call of the audio-extraction stage to moviepy's video clip. *)
Definition video_request (ev : event) : option unit :=
  match ev with
  | Called c _ =>
      match c with
      | VideoFileClip _ | video_write_audiofile _ _ | video_close => Some tt
      | _ => None
      end
  | Out _ => None
  end.

(** The exception a call to moviepy's video clip raised. *)
Definition video_failure (ev : event) : option exn :=
  match ev with
  | Called c r =>
      match c in call R return exn + R -> option exn with
      | VideoFileClip _ | video_write_audiofile _ _ | video_close =>
          fun r => match r with inl e => Some e | inr _ => None end
      | _ => fun _ => None
      end r
  | Out _ => None
  end.

(** The file an [os.path.getsize] or an [AudioFileClip] was asked about. *)
Definition probed_file (ev : event) : option string :=
  match ev with
  | Called c _ =>
      match c with
      | os_path_getsize p | AudioFileClip p => Some p
      | _ => None
      end
  | Out _ => None
  end.

(** The file an [os.path.exists] was asked about. *)
Definition existence_request (ev : event) : option string :=
  match ev with
  | Called c _ => match c with os_path_exists p => Some p | _ => None end
  | Out _ => None
  end.

(** The chunk file a sub-clip was asked to be written to. *)
Definition chunk_write_request (ev : event) : option string :=
  match ev with
  | Called c _ =>
      match c with subclip_write_audiofile p => Some p | _ => None end
  | Out _ => None
  end.

(** A value handed to the progress bar. *)
Definition progress_value (ev : event) : option Q :=
  match ev with
  | Out (progress q) => Some q
  | _ => None
  end.

(** A pause of the deletion loop. *)
Definition pause (ev : event) : option Q :=
  match ev with
  | Out (sleep s) => Some s
  | _ => None
  end.

(** The text an answered text-generation request gave. *)
Definition chat_answer (ev : event) : option string :=
  match ev with
  | Called c r =>
      match c in call R return exn + R -> option string with
      | chat_completions_create _ =>
          fun r => match r with inr text => Some text | inl _ => None end
      | _ => fun _ => None
      end r
  | Out _ => None
  end.

(** The data behind the download button. *)
Definition download_data (ev : event) : option string :=
  match ev with
  | Out (download_button data) => Some data
  | _ => None
  end.


(** "Done!" in the status box. *)
Definition done_shown (ev : event) : option unit :=
  match ev with
  | Out success_done => Some tt
  | _ => None
  end.


(** A computation that keeps a property of the local variables. *)
Definition preserves {L A} (P : L -> Prop) (m : M L A) : Prop :=
  forall env h l, P l -> P (vars (m env h l)).

(** Every registered file has a name longer than [input_path]. *)
Definition registers_beyond (input_path : string) (l : locals) : Prop :=
  Forall (fun f => (String.length input_path < String.length f)%nat)
         (temp_files_to_cleanup l).


(** What the sidebar says about the key it settled on (lines 70-73). *)
Inductive key_notice := key_loaded_from_environment | key_missing.

(** Lines 65-73: the key the sidebar settles on from the text field and the
    [OPENAI_API_KEY] variable, with the notice it shows. *)
Definition sidebar_key (typed : string) (environ : option string)
    : option string * option key_notice :=
  if truthy (Some typed) then (Some typed, None)
  else if truthy environ then (environ, Some key_loaded_from_environment)
  else (environ, Some key_missing).

(** Lines 221-263 and 307-322: "Transcribe File" pressed on an upload that
    would be saved at [tmp_file_path]. *)
Definition press_transcribe (api_key_input : option string)
    (tmp_file_path : string) (enable_diarization : bool)
    : M unit (option string) :=
  transcript_result <-
    (if negb (truthy api_key_input) then
       emit (st_error "Please provide an API Key in the sidebar.") ;;
       ret None
     else upload_handler tmp_file_path enable_diarization) ;;
  display_results transcript_result ;;
  ret transcript_result.

(** An audio whose first write of the extracted track raises
    [AttributeError] although the file was written. *)
Definition stdout_fault : exn := Exn AttributeError "no attribute stdout".

Definition noisy_extraction (written : bool) : Env :=
  Build_Env
    (fun R h c =>
       match c in call R return exn + R with
       | video_write_audiofile _ true => inl stdout_fault
       | os_path_exists _ => inr written
       | c' => calm (10 * MB) 600 h c'
       end)
    (fun _ => ".mp4").

(** A video whose audio track cannot be written. *)
Definition failing_write : Env :=
  Build_Env
    (fun R h c =>
       match c in call R return exn + R with
       | video_write_audiofile _ _ => inl unavailable
       | c' => calm (10 * MB) 600 h c'
       end)
    (fun _ => ".mp4").

Local Close Scope string_scope.

(** * binary64 arithmetic *)

Import Binary64.

Section Rounding.

Local Open Scope Q_scope.

(** ** Powers of two *)

Lemma pow2_pos e : 0 < pow2 e.
Proof. apply Qpower_0_lt. reflexivity. Qed.

Lemma pow2_add a b : pow2 (a + b) == pow2 a * pow2 b.
Proof. apply Qpower_plus. discriminate. Qed.

Lemma pow2_le a b : (a <= b)%Z -> pow2 a <= pow2 b.
Proof. intros H. apply Qpower_le_compat_l; [exact H|discriminate]. Qed.

Lemma pow2_lt a b : (a < b)%Z -> pow2 a < pow2 b.
Proof. intros H. apply Qpower_lt_compat_l; [exact H|reflexivity]. Qed.

Lemma pow2_Z e : (0 <= e)%Z -> pow2 e == inject_Z (2 ^ e).
Proof. intros H. unfold pow2. now rewrite (Zpower_Qpower 2 e H). Qed.

Lemma pow2_succ e : pow2 (e + 1) == 2 * pow2 e.
Proof. rewrite pow2_add. unfold pow2 at 2. change (2 ^ 1) with 2. ring. Qed.

Lemma pow2_sub a b : pow2 (a - b) == pow2 a / pow2 b.
Proof.
  pose proof (pow2_pos b) as Hb.
  assert (H : pow2 a == pow2 (a - b) * pow2 b).
  { rewrite <- pow2_add. now replace (a - b + b)%Z with a by ring. }
  rewrite H. field. lra.
Qed.

(** ** The integer part of the binary logarithm *)

Lemma Z_pow2_bounds (n : Z) : (0 < n)%Z ->
  pow2 (Z.log2 n) <= inject_Z n /\ inject_Z n < pow2 (Z.log2 n + 1).
Proof.
  intros Hn. pose proof (Z.log2_spec n Hn) as [Hlo Hhi].
  pose proof (Z.log2_nonneg n) as H0.
  rewrite !pow2_Z by lia. rewrite <- Zle_Qle, <- Zlt_Qlt.
  replace (Z.log2 n + 1)%Z with (Z.succ (Z.log2 n)) by lia. auto.
Qed.

Lemma log2_floor_spec (q : Q) : 0 < q ->
  pow2 (log2_floor q) <= q /\ q < pow2 (log2_floor q + 1).
Proof.
  intros Hq. destruct q as [n d].
  assert (Hn : (0 < n)%Z).
  { unfold Qlt in Hq. cbn in Hq. lia. }
  pose proof (Z_pow2_bounds Hn) as [Hnlo Hnhi].
  pose proof (@Z_pow2_bounds (Zpos d) eq_refl) as [Hdlo Hdhi].
  set (a := Z.log2 n) in *. set (b := Z.log2 (Zpos d)) in *.
  assert (Hd : 0 < inject_Z (Zpos d)) by reflexivity.
  assert (Hq' : n # d == inject_Z n / inject_Z (Zpos d)) by apply Qmake_Qdiv.
  pose proof (pow2_pos b) as Hb. pose proof (pow2_pos (b + 1)) as Hb1.
  pose proof (pow2_pos a) as Ha.
  assert (Hhi : n # d < pow2 (a - b + 1)).
  { replace (a - b + 1)%Z with (a + 1 - b)%Z by ring. rewrite pow2_sub, Hq'.
    apply Qlt_shift_div_l; [exact Hb|].
    apply Qle_lt_trans with (inject_Z n / inject_Z (Z.pos d) * inject_Z (Zpos d)).
    - apply Qmult_le_l.
      + apply Qlt_shift_div_l; [exact Hd|]. rewrite Qmult_0_l.
        change 0 with (inject_Z 0). now rewrite <- Zlt_Qlt.
      + exact Hdlo.
    - setoid_replace (inject_Z n / inject_Z (Z.pos d) * inject_Z (Z.pos d))
        with (inject_Z n) by (field; lra).
      exact Hnhi. }
  assert (Hlo : pow2 (a - b - 1) <= n # d).
  { replace (a - b - 1)%Z with (a - (b + 1))%Z by ring. rewrite pow2_sub, Hq'.
    apply Qle_shift_div_l; [exact Hd|].
    apply Qle_trans with (pow2 a / pow2 (b + 1) * pow2 (b + 1)).
    - apply Qmult_le_l; [|lra].
      apply Qlt_shift_div_l; [exact Hb1|]. lra.
    - setoid_replace (pow2 a / pow2 (b + 1) * pow2 (b + 1)) with (pow2 a)
        by (field; lra).
      exact Hnlo. }
  unfold log2_floor. cbn [Qnum Qden]. fold a b.
  destruct (Qle_bool (pow2 (a - b)) (n # d)) eqn:E.
  - apply Qle_bool_iff in E. split; [exact E|exact Hhi].
  - split; [exact Hlo|]. replace (a - b - 1 + 1)%Z with (a - b)%Z by ring.
    apply Qnot_le_lt. intros H. apply Qle_bool_iff in H. congruence.
Qed.

Lemma log2_floor_unique (q : Q) (l : Z) :
  pow2 l <= q -> q < pow2 (l + 1) -> log2_floor q = l.
Proof.
  intros Hlo Hhi.
  assert (Hq : 0 < q) by (pose proof (pow2_pos l); lra).
  destruct (log2_floor_spec Hq) as [Hlo' Hhi'].
  destruct (Z.lt_trichotomy (log2_floor q) l) as [H|[H|H]]; [exfalso|exact H|exfalso].
  - assert (pow2 (log2_floor q + 1) <= pow2 l) by (apply pow2_le; lia). lra.
  - assert (pow2 (l + 1) <= pow2 (log2_floor q)) by (apply pow2_le; lia). lra.
Qed.

(** ** Rounding half to even *)

Lemma round_half_even_close (x : Q) :
  Qabs (inject_Z (round_half_even x) - x) <= 1 # 2.
Proof.
  pose proof (Qfloor_le x) as Hlo. pose proof (Qlt_floor x) as Hhi.
  rewrite inject_Z_plus in Hhi. change (inject_Z 1) with 1 in Hhi.
  unfold round_half_even. apply Qabs_Qle_condition.
  destruct (Qcompare (x - inject_Z (Qfloor x)) (1 # 2)) eqn:E.
  - apply Qeq_alt in E. destruct (Z.even (Qfloor x));
      rewrite ?inject_Z_plus; change (inject_Z 1) with 1; lra.
  - apply Qlt_alt in E. lra.
  - apply Qgt_alt in E. rewrite inject_Z_plus. change (inject_Z 1) with 1. lra.
Qed.

Lemma Z_between (z f : Z) : (z <= f \/ f + 1 <= z)%Z.
Proof. lia. Qed.

(** No integer is nearer to [x] than [round_half_even x]. *)
Lemma round_half_even_nearest (x : Q) (z : Z) :
  Qabs (inject_Z (round_half_even x) - x) <= Qabs (inject_Z z - x).
Proof.
  pose proof (round_half_even_close x) as Hc.
  apply Qabs_Qle_condition in Hc.
  pose proof (Qfloor_le x) as Hlo. pose proof (Qlt_floor x) as Hhi.
  rewrite inject_Z_plus in Hhi. change (inject_Z 1) with 1 in Hhi.
  set (M := round_half_even x) in *.
  assert (HM : M = Qfloor x \/ M = (Qfloor x + 1)%Z).
  { subst M. unfold round_half_even.
    destruct (Qcompare _ _); [destruct (Z.even _)| |]; auto. }
  apply Qabs_Qle_condition.
  destruct (Z_between z (Qfloor x)) as [Hz|Hz].
  - rewrite Zle_Qle in Hz.
    rewrite (Qabs_neg (inject_Z z - x)) by lra.
    destruct HM as [-> | ->]; rewrite ?inject_Z_plus in *;
      change (inject_Z 1) with 1 in *; lra.
  - rewrite Zle_Qle, inject_Z_plus in Hz. change (inject_Z 1) with 1 in Hz.
    rewrite (Qabs_pos (inject_Z z - x)) by lra.
    destruct HM as [-> | ->]; rewrite ?inject_Z_plus in *;
      change (inject_Z 1) with 1 in *; lra.
Qed.

(** ** The last place *)

Lemma last_place_spec (q : Q) : ~ q == 0 ->
  (-1074 <= last_place q)%Z /\
  Qabs q < pow2 (last_place q + 53) /\
  ((-1074 < last_place q)%Z -> pow2 (last_place q + 52) <= Qabs q).
Proof.
  intros Hq.
  assert (Hpos : 0 < Qabs q).
  { pose proof (Qabs_nonneg q) as H0.
    destruct (Qeq_dec (Qabs q) 0) as [E|E]; [|lra].
    exfalso. apply Hq. revert E. apply Qabs_case; intros; lra. }
  destruct (log2_floor_spec Hpos) as [Hlo Hhi].
  unfold last_place. set (l := log2_floor (Qabs q)) in *.
  split; [lia|]. split.
  - apply Qlt_le_trans with (pow2 (l + 1)); [exact Hhi|]. apply pow2_le. lia.
  - intros H. replace (Z.max (l - 52) (-1074) + 52)%Z with l by lia. exact Hlo.
Qed.

Lemma nearest_double_eq (q : Q) : ~ q == 0 ->
  nearest_double q ==
  inject_Z (round_half_even (q / pow2 (last_place q))) * pow2 (last_place q).
Proof.
  intros Hq. unfold nearest_double.
  destruct (Qeq_bool q 0) eqn:E; [apply Qeq_bool_iff in E; contradiction|].
  apply Qred_correct.
Qed.

Lemma nearest_double_0 (q : Q) : q == 0 -> nearest_double q = 0.
Proof.
  intros Hq. unfold nearest_double. apply Qeq_bool_iff in Hq. now rewrite Hq.
Qed.

(** On the grid of the multiples of [2^e], nothing is nearer to [q] than
    the rounded multiple. *)
Lemma grid_nearest (q : Q) (e z : Z) :
  Qabs (inject_Z (round_half_even (q / pow2 e)) * pow2 e - q)
  <= Qabs (inject_Z z * pow2 e - q).
Proof.
  pose proof (pow2_pos e) as He.
  pose proof (round_half_even_nearest (q / pow2 e) z) as H.
  set (M := inject_Z (round_half_even (q / pow2 e))) in *.
  setoid_replace (M * pow2 e - q) with ((M - q / pow2 e) * pow2 e) by (field; lra).
  setoid_replace (inject_Z z * pow2 e - q)
    with ((inject_Z z - q / pow2 e) * pow2 e) by (field; lra).
  rewrite !Qabs_Qmult, (Qabs_pos (pow2 e)) by lra.
  apply Qmult_le_compat_r; lra.
Qed.

Lemma representable_0 : representable 0.
Proof. exists 0%Z, 0%Z. split; [reflexivity|]. split; [discriminate|lia]. Qed.

Lemma nearest_double_representable (q : Q) : representable (nearest_double q).
Proof.
  destruct (Qeq_dec q 0) as [Hq|Hq].
  - rewrite (nearest_double_0 Hq). apply representable_0.
  - destruct (last_place_spec Hq) as (He & Hhi & _).
    set (e := last_place q) in *.
    exists (round_half_even (q / pow2 e)), e.
    split; [now apply nearest_double_eq|]. split; [|exact He].
    pose proof (round_half_even_close (q / pow2 e)) as Hc.
    apply Qabs_Qle_condition in Hc.
    pose proof (pow2_pos e) as Hpe.
    assert (Hx : Qabs (q / pow2 e) < inject_Z (2 ^ 53)).
    { rewrite <- pow2_Z by lia. unfold Qdiv.
      rewrite Qabs_Qmult, Qabs_Qinv, (Qabs_pos (pow2 e)) by lra.
      apply Qlt_shift_div_r; [exact Hpe|].
      rewrite <- pow2_add. now replace (53 + e)%Z with (e + 53)%Z by ring. }
    apply Qabs_Qlt_condition in Hx.
    set (M := round_half_even (q / pow2 e)) in *.
    assert (H1 : inject_Z M < inject_Z (2 ^ 53 + 1))
      by (rewrite inject_Z_plus; change (inject_Z 1) with 1; lra).
    assert (H2 : inject_Z (- (2 ^ 53 + 1)) < inject_Z M).
    { rewrite inject_Z_opp, inject_Z_plus. change (inject_Z 1) with 1. lra. }
    rewrite <- Zlt_Qlt in H1, H2. lia.
Qed.

(** No binary64 number, of whatever magnitude, is nearer to [q] than
    [nearest_double q]. *)
Theorem nearest_double_nearest (q r : Q) :
  representable r ->
  Qabs (nearest_double q - q) <= Qabs (r - q).
Proof.
  intros (m & s & Hr & Hm & Hs).
  destruct (Qeq_dec q 0) as [Hq|Hq].
  - rewrite (nearest_double_0 Hq), Hq.
    setoid_replace (0 - 0) with 0 by ring. apply Qabs_nonneg.
  - rewrite (nearest_double_eq Hq).
    destruct (last_place_spec Hq) as (He & Hhi & Hlo).
    set (e := last_place q) in *.
    destruct (Z_le_gt_dec e s) as [Hes|Hes].
    + (* [r] is on the grid *)
      assert (Hz : r == inject_Z (m * 2 ^ (s - e)) * pow2 e).
      { rewrite Hr, inject_Z_mult, <- pow2_Z by lia.
        rewrite <- Qmult_assoc, <- pow2_add.
        now replace (s - e + e)%Z with s by ring. }
      rewrite Hz. apply grid_nearest.
    + (* [r] is below the binade of [q] *)
      assert (He' : (-1074 < e)%Z) by lia. specialize (Hlo He').
      assert (Hrb : Qabs r <= pow2 (e + 52)).
      { rewrite Hr, Qabs_Qmult, (Qabs_pos (pow2 s)) by (pose proof (pow2_pos s); lra).
        apply Qle_trans with (inject_Z (2 ^ 53) * pow2 s).
        - apply Qmult_le_compat_r; [|pose proof (pow2_pos s); lra].
          assert (H : Qabs (inject_Z m) == inject_Z (Z.abs m)).
          { unfold Qabs, inject_Z. reflexivity. }
          rewrite H, <- Zle_Qle. exact Hm.
        - rewrite <- pow2_Z, <- pow2_add by lia. apply pow2_le. lia. }
      pose proof (Qle_Qabs r) as Hr1.
      assert (Hr2 : - Qabs r <= r).
      { pose proof (Qle_Qabs (- r)) as H. rewrite Qabs_opp in H. lra. }
      assert (Ht : pow2 (e + 52) == inject_Z (2 ^ 52) * pow2 e).
      { rewrite <- pow2_Z by lia. rewrite <- pow2_add.
        now replace (52 + e)%Z with (e + 52)%Z by ring. }
      destruct (Qlt_le_dec 0 q) as [Hpos|Hneg].
      * rewrite (Qabs_pos q) in Hlo by lra.
        apply Qle_trans with (Qabs (inject_Z (2 ^ 52) * pow2 e - q));
          [apply grid_nearest|].
        rewrite <- Ht. rewrite (Qabs_neg (pow2 (e + 52) - q)) by lra.
        rewrite (Qabs_neg (r - q)) by lra. lra.
      * rewrite (Qabs_neg q) in Hlo by lra.
        apply Qle_trans with (Qabs (inject_Z (- 2 ^ 52) * pow2 e - q));
          [apply grid_nearest|].
        rewrite inject_Z_opp.
        setoid_replace (- inject_Z (2 ^ 52) * pow2 e - q)
          with (- pow2 (e + 52) - q) by (rewrite Ht; ring).
        rewrite (Qabs_pos (- pow2 (e + 52) - q)) by lra.
        rewrite (Qabs_pos (r - q)) by lra. lra.
Qed.

(** Rounding does not cross a binary64 number. *)
Lemma nearest_double_le (q r : Q) :
  representable r -> q <= r -> nearest_double q <= r.
Proof.
  intros Hr Hq. pose proof (nearest_double_nearest q Hr) as H.
  apply Qnot_lt_le. intros Hlt.
  rewrite (Qabs_pos (r - q)), (Qabs_pos (nearest_double q - q)) in H by lra. lra.
Qed.

Lemma nearest_double_ge (q r : Q) :
  representable r -> r <= q -> r <= nearest_double q.
Proof.
  intros Hr Hq. pose proof (nearest_double_nearest q Hr) as H.
  apply Qnot_lt_le. intros Hlt.
  rewrite (Qabs_neg (r - q)), (Qabs_neg (nearest_double q - q)) in H by lra. lra.
Qed.

(** A binary64 number rounds to itself. *)
Lemma nearest_double_exact (q : Q) : representable q -> nearest_double q == q.
Proof.
  intros Hq.
  pose proof (nearest_double_le Hq (Qle_refl q)) as Hle.
  pose proof (nearest_double_ge Hq (Qle_refl q)) as Hge. lra.
Qed.

(** ** binary64 numbers *)

Lemma representable_Z (z : Z) : (Z.abs z <= 2 ^ 53)%Z -> representable (inject_Z z).
Proof.
  intros Hz. exists z, 0%Z. split; [|split; [exact Hz|lia]].
  unfold pow2. change (2 ^ 0) with 1. ring.
Qed.

Lemma nearest_double_canonical (q : Q) : Qred (nearest_double q) = nearest_double q.
Proof.
  unfold nearest_double. destruct (Qeq_bool q 0); [reflexivity|].
  apply Qred_involutive.
Qed.

Lemma to_float_finite (q : Q) :
  Qabs (nearest_double q) < pow2 1024 -> to_float q = finite (nearest_double q).
Proof.
  intros H. unfold to_float.
  destruct (Qle_bool (pow2 1024) (Qabs (nearest_double q))) eqn:E; [|reflexivity].
  apply Qle_bool_iff in E. lra.
Qed.

(** Between 0 and a binary64 number, rounding stays there and is finite. *)
Lemma to_float_between (q r : Q) :
  binary64 r -> 0 <= q -> q <= r ->
  to_float q = finite (nearest_double q) /\
  0 <= nearest_double q /\ nearest_double q <= r.
Proof.
  intros [Hr Hmax] H0 Hq.
  pose proof (nearest_double_ge representable_0 H0) as Hlo.
  pose proof (nearest_double_le Hr Hq) as Hhi.
  split; [|split; assumption].
  apply to_float_finite. rewrite Qabs_pos by exact Hlo.
  apply Qle_lt_trans with r; [exact Hhi|].
  apply Qle_lt_trans with (Qabs r); [apply Qle_Qabs|exact Hmax].
Qed.

Lemma representable_1 : representable 1.
Proof. apply (representable_Z 1). vm_compute. discriminate. Qed.

Lemma binary64_1 : binary64 1.
Proof. split; [exact representable_1|]. vm_compute. reflexivity. Qed.

(** The floor of a binary64 number that is not negative is one. *)
Lemma representable_floor (x : Q) :
  representable x -> 0 <= x -> representable (inject_Z (Qfloor x)).
Proof.
  intros (m & s & Hx & Hm & Hs) H0.
  destruct (Z_le_gt_dec 0 s) as [Hpos|Hneg].
  - assert (Hz : x == inject_Z (m * 2 ^ s)).
    { rewrite Hx, inject_Z_mult, <- pow2_Z by lia. reflexivity. }
    rewrite Hz, Qfloor_Z. exists m, s. split; [|split; assumption].
    rewrite inject_Z_mult, <- pow2_Z by lia. reflexivity.
  - apply representable_Z.
    assert (Hlt : x < inject_Z (2 ^ 53)).
    { rewrite Hx. pose proof (pow2_pos s) as Hp.
      assert (Hs1 : pow2 s < 1).
      { change 1 with (pow2 0). apply pow2_lt. lia. }
      assert (Hm' : inject_Z m <= inject_Z (2 ^ 53)) by (rewrite <- Zle_Qle; lia).
      assert (H53 : 0 < inject_Z (2 ^ 53)) by reflexivity.
      destruct (Qlt_le_dec 0 (inject_Z m)) as [Hmp|Hmn].
      + apply Qle_lt_trans with (inject_Z (2 ^ 53) * pow2 s).
        * apply Qmult_le_compat_r; lra.
        * setoid_replace (inject_Z (2 ^ 53)) with (inject_Z (2 ^ 53) * 1) at 2 by ring.
          apply Qmult_lt_l; assumption.
      + apply Qle_lt_trans with 0; [|exact H53].
        setoid_replace 0 with (0 * pow2 s) by ring.
        apply Qmult_le_compat_r; lra. }
    pose proof (Qfloor_le x) as Hfl.
    assert (H1 : (0 <= Qfloor x)%Z).
    { change 0%Z with (Qfloor 0). now apply Qfloor_resp_le. }
    assert (H2 : inject_Z (Qfloor x) < inject_Z (2 ^ 53)) by lra.
    rewrite <- Zlt_Qlt in H2. lia.
Qed.


Lemma nearest_double_int (z : Z) :
  representable (inject_Z z) -> nearest_double (inject_Z z) = inject_Z z.
Proof.
  intros Hz. rewrite <- nearest_double_canonical.
  rewrite (Qred_complete _ _ (nearest_double_exact Hz)).
  apply Qred_identity. cbn. apply Z.gcd_1_r.
Qed.

(** A binary64 number up to [2^53] is a multiple of a power of two that
    is at most 1. *)
Lemma representable_fine (d : Q) :
  representable d -> Qabs d <= inject_Z (2 ^ 53) ->
  exists m u, d == inject_Z m * pow2 u /\ (Z.abs m <= 2 ^ 53)%Z /\ (u <= 0)%Z.
Proof.
  intros (m & s & Hd & Hm & Hs) Hmax.
  destruct (Z_le_gt_dec s 0) as [Hneg|Hpos].
  - exists m, s. auto.
  - exists (m * 2 ^ s)%Z, 0%Z.
    assert (Hz : d == inject_Z (m * 2 ^ s)).
    { rewrite Hd, inject_Z_mult, <- pow2_Z by lia. reflexivity. }
    split; [|split; [|lia]].
    + rewrite Hz. unfold pow2. change (2 ^ 0) with 1. ring.
    + rewrite Hz in Hmax.
      assert (H : Qabs (inject_Z (m * 2 ^ s)) == inject_Z (Z.abs (m * 2 ^ s)))
        by reflexivity.
      rewrite H, <- Zle_Qle in Hmax. exact Hmax.
Qed.


End Rounding.

(** * Chunk planning *)

Import Plan.

Section Division.

Local Open Scope Q_scope.

Lemma div_le_iff (d : Q) (c n : Z) : (0 < c)%Z ->
  (d / inject_Z c <= inject_Z n <-> d <= inject_Z (n * c)).
Proof.
  intros Hc. assert (Hq : 0 < inject_Z c) by (rewrite (Zlt_Qlt 0 c) in Hc; exact Hc).
  rewrite inject_Z_mult. split; intros H.
  - setoid_replace d with (d / inject_Z c * inject_Z c) by (field; lra).
    apply Qmult_le_compat_r; lra.
  - apply Qle_shift_div_r; assumption.
Qed.

Lemma lt_div_iff (d : Q) (c n : Z) : (0 < c)%Z ->
  (inject_Z n < d / inject_Z c <-> inject_Z (n * c) < d).
Proof.
  intros Hc. assert (Hq : 0 < inject_Z c) by (rewrite (Zlt_Qlt 0 c) in Hc; exact Hc).
  rewrite inject_Z_mult. split; intros H.
  - setoid_replace d with (d / inject_Z c * inject_Z c) by (field; lra).
    apply Qmult_lt_compat_r; lra.
  - apply Qlt_shift_div_l; assumption.
Qed.

Lemma le_div_iff (d : Q) (c n : Z) : (0 < c)%Z ->
  (inject_Z n <= d / inject_Z c <-> inject_Z (n * c) <= d).
Proof.
  intros Hc. pose proof (div_le_iff d (n + 1) Hc) as H1. pose proof (lt_div_iff d n Hc) as H2.
  assert (Hq : 0 < inject_Z c) by (rewrite (Zlt_Qlt 0 c) in Hc; exact Hc).
  rewrite inject_Z_mult. split; intros H.
  - setoid_replace d with (d / inject_Z c * inject_Z c) by (field; lra).
    apply Qmult_le_compat_r; lra.
  - apply Qle_shift_div_l; assumption.
Qed.

Lemma div_lt_iff (d : Q) (c n : Z) : (0 < c)%Z ->
  (d / inject_Z c < inject_Z n <-> d < inject_Z (n * c)).
Proof.
  intros Hc.
  assert (Hq : 0 < inject_Z c) by (rewrite (Zlt_Qlt 0 c) in Hc; exact Hc).
  rewrite inject_Z_mult. split; intros H.
  - setoid_replace d with (d / inject_Z c * inject_Z c) by (field; lra).
    apply Qmult_lt_compat_r; lra.
  - apply Qlt_shift_div_r; assumption.
Qed.

End Division.


Section ChunkDuration.

Local Open Scope Q_scope.


Variables file_size_mb duration : Q.
Hypothesis large : 25 < file_size_mb.
Hypothesis is_double : binary64 duration.
Hypothesis not_negative : 0 <= duration.

Local Abbreviation ratio := (nearest_double (SAFETY_BUFFER_MB / file_size_mb)).
Local Abbreviation product := (nearest_double (ratio * duration)).

Lemma ratio_bounds :
  to_float (SAFETY_BUFFER_MB / file_size_mb) = finite ratio /\
  0 <= ratio /\ ratio <= 1.
Proof.
  apply (to_float_between binary64_1); unfold SAFETY_BUFFER_MB.
  - apply Qle_shift_div_l; lra.
  - apply Qle_shift_div_r; lra.
Qed.

Lemma product_bounds :
  to_float (ratio * duration) = finite product /\
  0 <= product /\ product <= duration.
Proof.
  destruct ratio_bounds as (_ & Hlo & Hhi).
  apply (to_float_between is_double).
  - apply Qmult_le_0_compat; assumption.
  - setoid_replace duration with (1 * duration) at 2 by ring.
    apply Qmult_le_compat_r; assumption.
Qed.

(** On the chunking path lines 164-165 raise nothing. *)
Lemma chunk_duration_value :
  chunk_duration file_size_mb duration = inr (Z.max 10 (Qfloor product)).
Proof.
  destruct ratio_bounds as (Hr & _). destruct product_bounds as (Hp & _).
  unfold chunk_duration, float_truediv.
  destruct (Qeq_bool file_size_mb 0) eqn:E.
  - apply Qeq_bool_iff in E. lra.
  - rewrite Hr. cbn [float_mul]. rewrite Hp. reflexivity.
Qed.

End ChunkDuration.

Section NumChunks.

Local Open Scope Q_scope.


Variables (cd : Z) (duration : Q).
Hypothesis floor_applied : (10 <= cd)%Z.
Hypothesis cd_double : representable (inject_Z cd).
Hypothesis cd_small : cd = 10%Z \/ inject_Z cd <= duration.
Hypothesis is_double : binary64 duration.
Hypothesis not_negative : 0 <= duration.

Local Abbreviation quotient := (nearest_double (duration / inject_Z cd)).

Lemma cd_positive : 0 < inject_Z cd.
Proof. change 0 with (inject_Z 0). rewrite <- Zlt_Qlt. lia. Qed.

Lemma quotient_bounds :
  to_float (duration / inject_Z cd) = finite quotient /\
  0 <= quotient /\ quotient <= duration.
Proof.
  pose proof cd_positive as Hcd.
  assert (H1 : 1 <= inject_Z cd).
  { change 1 with (inject_Z 1). rewrite <- Zle_Qle. lia. }
  apply (to_float_between is_double).
  - apply Qle_shift_div_l; lra.
  - apply Qle_shift_div_r; [exact Hcd|]. nra.
Qed.

(** Line 167 raises nothing. *)
Lemma num_chunks_value :
  num_chunks duration cd = inr (Qceiling quotient).
Proof.
  destruct quotient_bounds as (Hq & _). pose proof cd_positive as Hcd.
  assert (Hmax : Qabs (inject_Z cd) < pow2 1024).
  { rewrite Qabs_pos by lra. destruct is_double as [_ Hd].
    destruct cd_small as [-> | Hle]; [vm_compute; reflexivity|].
    apply Qle_lt_trans with duration; [exact Hle|].
    apply Qle_lt_trans with (Qabs duration); [apply Qle_Qabs|exact Hd]. }
  unfold num_chunks, float_of_int.
  rewrite to_float_finite; rewrite (nearest_double_int cd_double); [|exact Hmax].
  unfold float_truediv.
  destruct (Qeq_bool (inject_Z cd) 0) eqn:E.
  - apply Qeq_bool_iff in E. lra.
  - rewrite Hq. reflexivity.
Qed.

Local Abbreviation n := (Qceiling quotient).

Hypothesis not_huge : duration <= inject_Z (2 ^ 53).

Lemma num_chunks_bound : (0 <= n <= 2 ^ 53)%Z.
Proof.
  destruct quotient_bounds as (_ & Hlo & Hhi). split.
  - change 0%Z with (Qceiling 0). now apply Qceiling_resp_le.
  - rewrite <- (Qceiling_Z (2 ^ 53)). apply Qceiling_resp_le. lra.
Qed.

(** Every chunk but the last ends before the clip does. *)
Lemma num_chunks_lower (i : Z) :
  (0 <= i)%Z -> (i < n)%Z -> inject_Z (i * cd) < duration.
Proof.
  intros Hi0 Hi. pose proof num_chunks_bound as Hn. pose proof cd_positive as Hcd.
  apply lt_div_iff; [lia|]. apply Qnot_le_lt. intros Hle.
  assert (Hrep : representable (inject_Z i)) by (apply representable_Z; lia).
  pose proof (nearest_double_le Hrep Hle) as Hf.
  pose proof (Qceiling_lt quotient) as Hc.
  assert (Hin : inject_Z i <= inject_Z (n - 1)) by (rewrite <- Zle_Qle; lia).
  lra.
Qed.

Hypothesis not_tiny : 5 * pow2 (-1074) < duration.

Lemma num_chunks_upper : duration <= inject_Z (n * cd).
Proof.
  pose proof num_chunks_bound as Hn. pose proof cd_positive as Hcd.
  destruct quotient_bounds as (_ & Hf0 & _).
  apply div_le_iff; [lia|]. apply Qnot_lt_le. intros Hlt.
  pose proof (Qle_ceiling quotient) as Hfn.
  set (k := Qceiling quotient) in *.
  set (q := duration / inject_Z cd) in *.
  assert (Hd : duration == q * inject_Z cd) by (subst q; field; lra).
  assert (Hdpos : 0 < duration).
  { pose proof (pow2_pos (-1074)). lra. }
  destruct (Z.eq_dec k 0) as [Hn0|Hn0].
  - (* the quotient was rounded to 0 *)
    rewrite Hn0 in *. change (inject_Z 0) with 0 in *.
    assert (Hr : representable (pow2 (-1074))).
    { exists 1%Z, (-1074)%Z. split; [ring|]. split; [vm_compute; discriminate|lia]. }
    pose proof (nearest_double_nearest q Hr) as Hnear.
    rewrite (Qabs_neg (nearest_double q - q)) in Hnear by lra.
    assert (Hhalf : 2 * pow2 (-1075) == pow2 (-1074)).
    { rewrite <- pow2_succ. reflexivity. }
    assert (Hq : q <= pow2 (-1075)).
    { destruct (Qlt_le_dec q (pow2 (-1074))) as [Hs|Hs].
      - rewrite (Qabs_pos (pow2 (-1074) - q)) in Hnear by lra. lra.
      - rewrite (Qabs_neg (pow2 (-1074) - q)) in Hnear by lra.
        pose proof (pow2_pos (-1074)). lra. }
    assert (Hsmall : pow2 (-1075) < 1).
    { change 1 with (pow2 0). apply pow2_lt. lia. }
    pose proof (pow2_pos (-1075)) as Hp.
    destruct cd_small as [E | Hle].
    + rewrite E in Hd. change (inject_Z 10) with 10 in Hd. lra.
    + nra.
  - (* at least one chunk *)
    assert (Hk : (1 <= k)%Z) by lia.
    pose proof (Z.log2_spec k ltac:(lia)) as [Hlo Hhi].
    pose proof (Z.log2_nonneg k) as Ha0.
    set (a := Z.log2 k) in *.
    assert (Ha : (a <= 52)%Z).
    { destruct (Z_le_gt_dec a 52) as [|Hgt]; [assumption|exfalso].
      assert (2 ^ 53 <= 2 ^ a)%Z by (apply Z.pow_le_mono_r; lia).
      assert (Hq53 : q <= inject_Z (2 ^ 53)).
      { subst q. apply Qle_shift_div_r; [exact Hcd|].
        assert (1 <= inject_Z cd)
          by (change 1 with (inject_Z 1); rewrite <- Zle_Qle; lia).
        assert (0 < inject_Z (2 ^ 53)) by reflexivity. nra. }
      assert (Hn53 : inject_Z (2 ^ 53) <= inject_Z k) by (rewrite <- Zle_Qle; lia).
      lra. }
    set (p := (2 ^ (52 - a))%Z).
    assert (Hp : (2 ^ a * p = 2 ^ 52)%Z).
    { subst p. rewrite <- Z.pow_add_r by lia. f_equal. lia. }
    assert (Hp1 : (1 <= p)%Z)
      by (subst p; pose proof (Z.pow_pos_nonneg 2 (52 - a)); lia).
    assert (Hr : representable (inject_Z (k * p + 1) * pow2 (a - 52))).
    { exists (k * p + 1)%Z, (a - 52)%Z. split; [reflexivity|]. split; [|lia].
      replace (Z.succ a) with (a + 1)%Z in Hhi by lia.
      rewrite Z.pow_add_r in Hhi by lia. change (2 ^ 1)%Z with 2%Z in Hhi.
      change (2 ^ 53)%Z with (2 * 2 ^ 52)%Z. nia. }
    assert (Hrv : inject_Z (k * p + 1) * pow2 (a - 52) == inject_Z k + pow2 (a - 52)).
    { rewrite inject_Z_plus, inject_Z_mult. change (inject_Z 1) with 1.
      assert (Hpp : inject_Z p * pow2 (a - 52) == 1).
      { subst p. rewrite <- pow2_Z, <- pow2_add by lia.
        replace (52 - a + (a - 52))%Z with 0%Z by ring. reflexivity. }
      setoid_replace ((inject_Z k * inject_Z p + 1) * pow2 (a - 52))
        with (inject_Z k * (inject_Z p * pow2 (a - 52)) + pow2 (a - 52)) by ring.
      rewrite Hpp. ring. }
    pose proof (nearest_double_nearest q Hr) as Hnear.
    rewrite Hrv in Hnear.
    rewrite (Qabs_neg (nearest_double q - q)) in Hnear by lra.
    pose proof (pow2_pos (a - 52)) as Hpa.
    assert (Hstar : 2 * (q - inject_Z k) <= pow2 (a - 52)).
    { destruct (Qlt_le_dec q (inject_Z k + pow2 (a - 52))) as [Hs|Hs].
      - rewrite (Qabs_pos (inject_Z k + pow2 (a - 52) - q)) in Hnear by lra. lra.
      - rewrite (Qabs_neg (inject_Z k + pow2 (a - 52) - q)) in Hnear by lra. lra. }
    (* the clip's duration is a multiple of [2^u], and so is [k * cd] *)
    assert (Hdabs : Qabs duration <= inject_Z (2 ^ 53))
      by (rewrite Qabs_pos; lra).
    destruct (representable_fine (proj1 is_double) Hdabs) as (m & u & Hm & Hmb & Hu).
    pose proof (pow2_pos u) as Hpu.
    set (w := (m - k * cd * 2 ^ (- u))%Z).
    assert (Hrho : duration - inject_Z k * inject_Z cd == inject_Z w * pow2 u).
    { subst w. unfold Z.sub. rewrite inject_Z_plus, inject_Z_opp, !inject_Z_mult.
      rewrite <- (@pow2_Z (- u)%Z) by lia.
      setoid_replace ((inject_Z m + - (inject_Z k * inject_Z cd * pow2 (- u))) * pow2 u)
        with (inject_Z m * pow2 u - inject_Z k * inject_Z cd * (pow2 (- u) * pow2 u))
        by ring.
      rewrite <- pow2_add. replace (- u + u)%Z with 0%Z by ring.
      rewrite <- Hm. unfold pow2. change (2 ^ 0) with 1. ring. }
    assert (Hrho_pos : 0 < duration - inject_Z k * inject_Z cd) by nra.
    assert (Hw : (1 <= w)%Z).
    { destruct (Z_le_gt_dec w 0) as [Hw0|]; [exfalso|lia].
      assert (inject_Z w <= 0) by (change 0 with (inject_Z 0); rewrite <- Zle_Qle; lia).
      rewrite Hrho in Hrho_pos. nra. }
    assert (Hrho_ge : pow2 u <= duration - inject_Z k * inject_Z cd).
    { rewrite Hrho.
      assert (1 <= inject_Z w)
        by (change 1 with (inject_Z 1); rewrite <- Zle_Qle; lia).
      nra. }
    assert (Hdmax : duration <= pow2 (53 + u)).
    { rewrite Hm, pow2_add, (@pow2_Z 53) by lia.
      apply Qmult_le_compat_r; [|lra]. rewrite <- Zle_Qle. lia. }
    assert (Hcdlt : pow2 a * inject_Z cd < pow2 (53 + u)).
    { apply Qle_lt_trans with (inject_Z k * inject_Z cd); [|lra].
      apply Qmult_le_compat_r; [|lra].
      rewrite (@pow2_Z a) by lia. rewrite <- Zle_Qle. exact Hlo. }
    assert (Hfinal : 2 * (duration - inject_Z k * inject_Z cd)
                     <= pow2 (a - 52) * inject_Z cd).
    { rewrite Hd.
      setoid_replace (2 * (q * inject_Z cd - inject_Z k * inject_Z cd))
        with (2 * (q - inject_Z k) * inject_Z cd) by ring.
      apply Qmult_le_compat_r; lra. }
    assert (Hlast : pow2 (a - 52) * inject_Z cd < 2 * pow2 u).
    { assert (Hsplit : pow2 (53 + u) == 2 * pow2 u * pow2 52).
      { rewrite <- pow2_succ, <- pow2_add. now replace (u + 1 + 52)%Z with (53 + u)%Z by ring. }
      assert (Ha52 : pow2 a == pow2 (a - 52) * pow2 52).
      { rewrite <- pow2_add. now replace (a - 52 + 52)%Z with a by ring. }
      pose proof (pow2_pos 52) as H52.
      rewrite Hsplit, Ha52 in Hcdlt.
      apply Qmult_lt_r with (pow2 52); [exact H52|].
      setoid_replace (pow2 (a - 52) * inject_Z cd * pow2 52)
        with (pow2 (a - 52) * pow2 52 * inject_Z cd) by ring.
      exact Hcdlt. }
    lra.
Qed.

End NumChunks.

(** What lines 164-165 compute on the chunking path: at least 10, a
    binary64 number, and above 10 only up to the clip's duration. *)
Lemma chunk_duration_facts (file_size_mb duration : Q) :
  (25 < file_size_mb)%Q -> binary64 duration -> (0 <= duration)%Q ->
  exists cd,
    chunk_duration file_size_mb duration = inr cd /\
    (10 <= cd)%Z /\ representable (inject_Z cd) /\
    (cd = 10%Z \/ (inject_Z cd <= duration)%Q).
Proof.
  intros Hsize Hd H0.
  destruct (product_bounds Hsize Hd H0) as (_ & Hlo & Hhi).
  eexists. split; [apply (chunk_duration_value Hsize Hd H0)|].
  set (x := nearest_double (nearest_double (SAFETY_BUFFER_MB / file_size_mb) * duration)) in *.
  split; [apply Z.le_max_l|].
  destruct (Z.max_spec 10 (Qfloor x)) as [[Hlt ->]|[Hge ->]].
  - split; [apply representable_floor; [apply nearest_double_representable|exact Hlo]|].
    right. apply Qle_trans with x; [apply Qfloor_le|exact Hhi].
  - split; [|now left]. apply (representable_Z 10). vm_compute. discriminate.
Qed.

Section PlanFacts.

Local Open Scope Q_scope.

Variables (cd : Z) (duration : Q) (n : Z).
Hypothesis cd_pos : (0 < cd)%Z.
Hypothesis lower : forall i, (0 <= i)%Z -> (i < n)%Z -> inject_Z (i * cd) < duration.

Lemma range_length m : List.length (range m) = Z.to_nat m.
Proof. unfold range. now rewrite length_map, length_seq. Qed.

Lemma range_nth m i : (i < Z.to_nat m)%nat -> nth_error (range m) i = Some (Z.of_nat i).
Proof.
  intros Hi. unfold range. rewrite nth_error_map.
  rewrite nth_error_nth' with (d := O) by now rewrite length_seq.
  simpl. now rewrite seq_nth.
Qed.

Lemma specs_nth i s e :
  nth_error (chunk_specs cd duration n) i = Some (s, e) ->
  (i < Z.to_nat n)%nat /\ s = start_time (Z.of_nat i) cd /\ e = end_time (Z.of_nat i) cd duration.
Proof.
  intros H. assert (Hi : (i < Z.to_nat n)%nat).
  { assert (Hn : nth_error (chunk_specs cd duration n) i <> None) by congruence.
    apply nth_error_Some in Hn. unfold chunk_specs in Hn.
    now rewrite length_map, range_length in Hn. }
  split; [exact Hi|]. unfold chunk_specs in H. rewrite nth_error_map, range_nth in H by exact Hi.
  simpl in H. inversion H. auto.
Qed.

Lemma py_min_cases (a b : Q) :
  (a <= b /\ py_min a b = a) \/ (b < a /\ py_min a b = b).
Proof.
  unfold py_min. destruct (Qle_bool a b) eqn:E.
  - left. split; [now apply Qle_bool_iff|reflexivity].
  - right. split; [|reflexivity]. apply Qnot_le_lt. intros H.
    apply Qle_bool_iff in H. congruence.
Qed.

Lemma of_nat_lt_n i : (i < Z.to_nat n)%nat -> (0 <= Z.of_nat i < n)%Z.
Proof. lia. Qed.

Lemma specs_nonempty_ranges : nonempty_ranges (chunk_specs cd duration n).
Proof.
  intros i s e H. apply specs_nth in H as (Hi & -> & ->).
  apply of_nat_lt_n in Hi as [Hi0 Hi]. pose proof (lower Hi0 Hi) as Hlo.
  unfold start_time, end_time.
  assert (inject_Z (Z.of_nat i * cd) < inject_Z ((Z.of_nat i + 1) * cd))
    by (rewrite <- Zlt_Qlt; nia).
  destruct (py_min_cases (inject_Z ((Z.of_nat i + 1) * cd)) duration)
    as [[_ ->]|[_ ->]]; assumption.
Qed.

Lemma specs_contiguous : contiguous (chunk_specs cd duration n).
Proof.
  intros i s e s' e' H H'.
  apply specs_nth in H as (Hi & -> & ->). apply specs_nth in H' as (Hi' & -> & _).
  apply of_nat_lt_n in Hi' as [Hi0' Hi']. pose proof (lower Hi0' Hi') as Hlo.
  unfold start_time, end_time. rewrite Nat2Z.inj_succ in *. unfold Z.succ in *.
  destruct (py_min_cases (inject_Z ((Z.of_nat i + 1) * cd)) duration)
    as [[_ ->]|[Hlt _]]; [reflexivity|lra].
Qed.

Lemma specs_non_overlapping : non_overlapping (chunk_specs cd duration n).
Proof.
  intros i j s e s' e' Hij H H'.
  apply specs_nth in H as (Hi & -> & ->). apply specs_nth in H' as (Hj & -> & _).
  unfold start_time, end_time.
  assert (inject_Z ((Z.of_nat i + 1) * cd) <= inject_Z (Z.of_nat j * cd))
    by (rewrite <- Zle_Qle; nia).
  destruct (py_min_cases (inject_Z ((Z.of_nat i + 1) * cd)) duration)
    as [[_ ->]|[Hlt ->]]; lra.
Qed.

Lemma range_In m i : In i (range m) <-> (0 <= i < m)%Z.
Proof.
  unfold range. rewrite in_map_iff. split.
  - intros (k & <- & Hk). apply in_seq in Hk. lia.
  - intros Hi. exists (Z.to_nat i). split; [lia|]. apply in_seq. lia.
Qed.

Hypothesis upper : duration <= inject_Z (n * cd).

Lemma num_chunks_pos : 0 < duration -> (0 < n)%Z.
Proof.
  intros Hd.
  destruct (Z.lt_ge_cases 0 n) as [|Hn]; [assumption|exfalso].
  assert (inject_Z (n * cd) <= 0).
  { change 0 with (inject_Z 0). rewrite <- Zle_Qle. nia. }
  lra.
Qed.

Lemma specs_starts_at_zero : 0 < duration -> starts_at_zero (chunk_specs cd duration n).
Proof.
  intros Hd. pose proof (num_chunks_pos Hd) as Hn.
  unfold starts_at_zero, chunk_specs, range.
  destruct (Z.to_nat n) as [|k] eqn:E; [lia|].
  simpl. eexists _, _. reflexivity.
Qed.

Lemma specs_ends_at : 0 < duration -> ends_at (chunk_specs cd duration n) duration.
Proof.
  intros Hd. pose proof (num_chunks_pos Hd) as Hn.
  unfold ends_at, chunk_specs, range.
  destruct (Z.to_nat n) as [|k] eqn:E; [lia|].
  rewrite seq_S, !map_app. simpl.
  eexists _, _, _. split; [reflexivity|].
  unfold end_time. replace (Z.of_nat k + 1)%Z with n by lia.
  destruct (py_min_cases (inject_Z (n * cd)) duration) as [[Hle ->]|[_ ->]];
    [lra|reflexivity].
Qed.

Lemma specs_covers : covers (chunk_specs cd duration n) duration.
Proof.
  intros t. split.
  - intros [Ht0 Htd].
    set (i := Qfloor (t / inject_Z cd)).
    assert (Hlo : inject_Z (i * cd) <= t)
      by (apply le_div_iff; [assumption|apply Qfloor_le]).
    assert (Hhi : t < inject_Z ((i + 1) * cd))
      by (apply div_lt_iff; [assumption|apply Qlt_floor]).
    assert (Hi0 : (0 <= i)%Z).
    { assert (H : inject_Z 0 < inject_Z ((i + 1) * cd))
        by (apply Qle_lt_trans with t; assumption).
      rewrite <- Zlt_Qlt in H. nia. }
    assert (Hin : (i < n)%Z).
    { assert (H : inject_Z (i * cd) < inject_Z (n * cd)) by lra.
      rewrite <- Zlt_Qlt in H. nia. }
    exists (start_time i cd), (end_time i cd duration). split; [|split].
    + unfold chunk_specs.
      apply (in_map (fun i => (start_time i cd, end_time i cd duration))).
      apply range_In. lia.
    + exact Hlo.
    + unfold end_time.
      destruct (py_min_cases (inject_Z ((i + 1) * cd)) duration)
        as [[_ ->]|[_ ->]]; assumption.
  - intros (s & e & Hin & Hs & He).
    unfold chunk_specs in Hin. apply in_map_iff in Hin as (i & Heq & Hi).
    inversion Heq; subst s e. apply range_In in Hi.
    unfold start_time, end_time in *. split.
    + apply Qle_trans with (inject_Z (i * cd)); [|assumption].
      change 0 with (inject_Z 0). rewrite <- Zle_Qle. nia.
    + destruct (py_min_cases (inject_Z ((i + 1) * cd)) duration)
        as [[Hle E]|[Hlt E]]; rewrite E in He; lra.
Qed.

End PlanFacts.

(** C5.  On the chunking path (more than 25 MB) and for a clip duration
    that is not negative, lines 164-165 raise nothing and the chunk
    duration they compute is at least 10 seconds; it is exactly 10 when
    [(20 / file_size_mb) * duration] floors to 0. *)
Theorem chunk_duration_at_least_ten (file_size_mb duration : Q) :
  (25 < file_size_mb)%Q -> (0 <= duration)%Q -> binary64 duration ->
  exists cd,
    chunk_duration file_size_mb duration = inr cd /\
    (10 <= cd)%Z /\
    (Qfloor ((SAFETY_BUFFER_MB / file_size_mb) * duration) = 0%Z -> cd = 10%Z).
Proof.
  intros Hsize H0 Hd.
  exists (Z.max 10 (Qfloor (nearest_double
            (nearest_double (SAFETY_BUFFER_MB / file_size_mb) * duration)))).
  split; [apply (chunk_duration_value Hsize Hd H0)|].
  split; [apply Z.le_max_l|]. intros Hfloor.
  apply Z.max_l.
  set (q := (SAFETY_BUFFER_MB / file_size_mb)%Q) in *.
  assert (Hq : (0 <= q)%Q).
  { subst q. unfold SAFETY_BUFFER_MB. apply Qle_shift_div_l; lra. }
  assert (Hp : (q * duration < 1)%Q).
  { pose proof (Qlt_floor (q * duration)) as H. rewrite Hfloor in H. exact H. }
  pose proof (nearest_double_nearest q representable_0) as Hnear.
  pose proof (nearest_double_ge representable_0 Hq) as Hr0.
  assert (Hr : (nearest_double q <= 2 * q)%Q).
  { rewrite (Qabs_neg (0 - q)) in Hnear by lra.
    destruct (Qlt_le_dec (nearest_double q) q) as [Hlt|Hge]; [lra|].
    rewrite (Qabs_pos (nearest_double q - q)) in Hnear by lra. lra. }
  assert (H2 : representable 2) by (apply (representable_Z 2); vm_compute; discriminate).
  assert (Hx : (nearest_double (nearest_double q * duration) <= 2)%Q).
  { apply (nearest_double_le H2). nra. }
  apply Z.le_trans with 2%Z; [|lia].
  rewrite <- (Qfloor_Z 2). now apply Qfloor_resp_le.
Qed.

(** C1, as the code has it.  On the chunking path, for a clip duration
    above [5 * 2^-1074] seconds and up to [2^53] seconds, lines 164-167
    raise nothing and the ranges the loop of lines 171-173 cuts are each
    non-empty, start at 0, each end where the next starts, do not overlap,
    end at the duration, and a time lies in one of them exactly when it
    lies in [[0, duration)]. *)
Theorem chunk_plan_covers_duration (file_size_mb duration : Q) :
  (25 < file_size_mb)%Q -> binary64 duration ->
  (5 * pow2 (-1074) < duration)%Q -> (duration <= inject_Z (2 ^ 53))%Q ->
  exists plan,
    chunk_plan file_size_mb duration = inr plan /\
    nonempty_ranges plan /\ contiguous plan /\ non_overlapping plan /\
    starts_at_zero plan /\ ends_at plan duration /\ covers plan duration.
Proof.
  intros Hsize Hd Htiny Hhuge.
  assert (Hpos : (0 < duration)%Q) by (pose proof (pow2_pos (-1074)); lra).
  assert (H0 : (0 <= duration)%Q) by lra.
  destruct (chunk_duration_facts Hsize Hd H0) as (cd & Hcd & Hten & Hrep & Hsmall).
  assert (Hcdpos : (0 < cd)%Z) by lia.
  pose proof (num_chunks_value Hten Hrep Hsmall Hd H0) as Hn.
  pose proof (fun i => @num_chunks_lower cd duration Hten Hd H0 Hhuge i) as Hlower.
  pose proof (num_chunks_upper Hten Hsmall Hd H0 Hhuge Htiny) as Hupper.
  eexists. split; [unfold chunk_plan; rewrite Hcd, Hn; reflexivity|].
  repeat apply conj.
  - now apply specs_nonempty_ranges.
  - now apply specs_contiguous.
  - now apply specs_non_overlapping.
  - now apply specs_starts_at_zero.
  - now apply specs_ends_at.
  - now apply specs_covers.
Qed.

Local Open Scope string_scope.

Lemma binary64_Z (z : Z) : (Z.abs z <= 2 ^ 53)%Z -> binary64 (inject_Z z).
Proof.
  intros Hz. split; [now apply representable_Z|].
  assert (H : (Qabs (inject_Z z) == inject_Z (Z.abs z))%Q) by reflexivity.
  rewrite H. apply Qle_lt_trans with (inject_Z (2 ^ 53)).
  - now rewrite <- Zle_Qle.
  - vm_compute. reflexivity.
Qed.

Lemma chunk_duration_at_least_ten_witness :
  (25 < 1000)%Q /\ (0 <= 1)%Q /\ binary64 1 /\
  Qfloor ((SAFETY_BUFFER_MB / 1000) * 1) = 0%Z /\
  chunk_duration 1000 1 = inr 10%Z.
Proof.
  assert (Hsize : (25 < 1000)%Q) by reflexivity.
  assert (Hdur : (0 <= 1)%Q) by (vm_compute; discriminate).
  assert (Hfloor : Qfloor ((SAFETY_BUFFER_MB / 1000) * 1) = 0%Z) by reflexivity.
  split; [exact Hsize|split; [exact Hdur|split; [exact binary64_1|split; [exact Hfloor|]]]].
  destruct (@chunk_duration_at_least_ten 1000 1 Hsize Hdur binary64_1)
    as (cd & Hcd & _ & Hten).
  rewrite (Hten Hfloor) in Hcd. exact Hcd.
Defined.

Lemma chunk_plan_covers_duration_witness :
  (25 < 100)%Q /\ binary64 3000 /\
  (5 * pow2 (-1074) < 3000)%Q /\ (3000 <= inject_Z (2 ^ 53))%Q /\
  exists plan,
    chunk_plan 100 3000 = inr plan /\
    contiguous plan /\ ends_at plan 3000 /\ covers plan 3000.
Proof.
  assert (Hsize : (25 < 100)%Q) by reflexivity.
  assert (Hdur : binary64 3000) by (apply (binary64_Z 3000); vm_compute; discriminate).
  assert (Htiny : (5 * pow2 (-1074) < 3000)%Q) by (vm_compute; reflexivity).
  assert (Hhuge : (3000 <= inject_Z (2 ^ 53))%Q) by (vm_compute; discriminate).
  split; [exact Hsize|split; [exact Hdur|split; [exact Htiny|split; [exact Hhuge|]]]].
  destruct (@chunk_plan_covers_duration 100 3000 Hsize Hdur Htiny Hhuge)
    as (plan & Hplan & _ & Hcont & _ & _ & Hend & Hcov).
  exists plan. auto.
Defined.

(** C1 fails as stated: a clip of [2^-1074] seconds, the smallest positive
    duration there is, has a positive duration and an empty plan, because
    the quotient of line 167 is rounded to 0. *)
Lemma smallest_duration_has_no_plan :
  let duration := pow2 (-1074) in
  (25 < 30)%Q /\ (0 < duration)%Q /\ binary64 duration /\
  chunk_duration 30 duration = inr 10%Z /\
  num_chunks duration 10 = inr 0%Z /\
  chunk_plan 30 duration = inr [] /\
  ~ ends_at [] duration /\ ~ covers [] duration.
Proof.
  cbv zeta. split; [reflexivity|]. split; [vm_compute; reflexivity|].
  split.
  { split; [|vm_compute; reflexivity].
    exists 1%Z, (-1074)%Z. split; [vm_compute; reflexivity|].
    split; [vm_compute; discriminate|lia]. }
  split; [vm_compute; reflexivity|]. split; [vm_compute; reflexivity|].
  split; [vm_compute; reflexivity|]. split.
  - intros (front & s & e & H & _). destruct front; discriminate H.
  - intros H. destruct (proj1 (H 0%Q)) as (s & e & [] & _).
    split; [apply Qle_refl|vm_compute; reflexivity].
Qed.

(** Beyond [2^53] seconds the plan can stop short of the clip's end: at
    60 MB and [3 * 2^52 + 4] seconds the three chunks of [2^52 + 1] seconds
    end one second early, the quotient of line 167 being rounded to 3. *)
Example huge_duration_is_cut_short :
  let duration := inject_Z (3 * 2 ^ 52 + 4) in
  chunk_duration 60 duration = inr (2 ^ 52 + 1)%Z /\
  num_chunks duration (2 ^ 52 + 1) = inr 3%Z /\
  chunk_plan 60 duration =
    inr [(0%Z, inject_Z (2 ^ 52 + 1));
         (2 ^ 52 + 1, inject_Z (2 * (2 ^ 52 + 1)))%Z;
         (2 * (2 ^ 52 + 1), inject_Z (3 * 2 ^ 52 + 3))%Z].
Proof. cbv zeta. repeat apply conj; vm_compute; reflexivity. Qed.

(** The 100 MB, 3000 s scenario: five chunks of 600 seconds. *)
Example plan_100MB_3000s :
  chunk_duration 100 3000 = inr 600%Z /\
  num_chunks 3000 600 = inr 5%Z /\
  chunk_plan 100 3000 =
    inr [(0%Z, 600%Q); (600%Z, 1200%Q); (1200%Z, 1800%Q); (1800%Z, 2400%Q);
         (2400%Z, 3000%Q)].
Proof. repeat apply conj; vm_compute; reflexivity. Qed.

(** A last chunk shorter than the others: 25 s in chunks of 16 s. *)
Example plan_30MB_25s :
  chunk_plan 30 25 = inr [(0%Z, 16%Q); (16%Z, 25%Q)].
Proof. vm_compute. reflexivity. Qed.

(** Where rounding shows: at 77 MB and 77 s the exact product
    [(20 / 77) * 77] is 20, the rounded one is just below, and the clip is
    cut into five chunks of 19 seconds rather than four of 20. *)
Example plan_77MB_77s :
  Qfloor ((SAFETY_BUFFER_MB / 77) * 77) = 20%Z /\
  chunk_duration 77 77 = inr 19%Z /\
  num_chunks 77 19 = inr 5%Z.
Proof. repeat apply conj; vm_compute; reflexivity. Qed.

(** Off the chunking path the arithmetic can raise: a size of 0 is a
    division by zero, and a ratio that overflows cannot be floored. *)
Example chunk_duration_raises :
  chunk_duration 0 77 = inl (ZeroDivisionError "float division by zero") /\
  chunk_duration (pow2 (-1074)) 77 =
    inl (OverflowError "cannot convert float infinity to integer") /\
  chunk_duration (pow2 (-1074)) 0 =
    inl (ValueError "cannot convert float NaN to integer").
Proof. repeat apply conj; vm_compute; reflexivity. Qed.

(** [nearest_double] against the Standard Library's specification of
    IEEE 754 arithmetic, at the operations of the examples above and at
    the edges of the format. *)
Example rounding_agrees_with_IEEE_754 :
  of_spec (SFdiv 53 1024 (to_spec 20) (to_spec 77)) = to_float (20 / 77) /\
  of_spec (SFmul 53 1024 (to_spec (nearest_double (20 / 77))) (to_spec 77)) =
    to_float (nearest_double (20 / 77) * 77) /\
  of_spec (SFdiv 53 1024 (to_spec 77) (to_spec 19)) = to_float (77 / 19) /\
  of_spec (SFdiv 53 1024 (to_spec (pow2 (-1074))) (to_spec 10)) =
    to_float (pow2 (-1074) / 10) /\
  of_spec (SFdiv 53 1024 (to_spec (5 * pow2 (-1074))) (to_spec 10)) =
    to_float (5 * pow2 (-1074) / 10) /\
  of_spec (SFdiv 53 1024 (to_spec (6 * pow2 (-1074))) (to_spec 10)) =
    to_float (6 * pow2 (-1074) / 10) /\
  of_spec (SFdiv 53 1024 (to_spec 20) (to_spec (pow2 (-1074)))) =
    to_float (20 / pow2 (-1074)) /\
  of_spec (SFdiv 53 1024 (to_spec (inject_Z (3 * 2 ^ 52 + 4)))
             (to_spec (inject_Z (2 ^ 52 + 1)))) =
    to_float (inject_Z (3 * 2 ^ 52 + 4) / inject_Z (2 ^ 52 + 1)).
Proof. repeat apply conj; vm_compute; reflexivity. Qed.

Local Close Scope string_scope.

(** * Facts about the monad *)

Lemma pick_app {X} (f : event -> option X) (a b : list event) :
  pick f (a ++ b) = pick f a ++ pick f b.
Proof. unfold pick. apply flat_map_app. Qed.

Lemma after_nil {L A} (o : outcome L A) : after [] o = o.
Proof. now destruct o. Qed.

Section BindEquations.

Context {L B : Type} (env : Env) (h : list event) (l : L).

Lemma bind_ret A (a : A) (k : A -> M L B) : bind (ret a) k env h l = k a env h l.
Proof. unfold bind, ret. cbn. rewrite app_nil_r. apply after_nil. Qed.

Lemma bind_the_env (k : Env -> M L B) : bind the_env k env h l = k env env h l.
Proof. unfold bind, the_env. cbn. rewrite app_nil_r. apply after_nil. Qed.

Lemma bind_get_vars (k : L -> M L B) : bind get_vars k env h l = k l env h l.
Proof. unfold bind, get_vars. cbn. rewrite app_nil_r. apply after_nil. Qed.

Lemma bind_set_vars (l' : L) (k : unit -> M L B) :
  bind (set_vars l') k env h l = k tt env h l'.
Proof. unfold bind, set_vars. cbn. rewrite app_nil_r. apply after_nil. Qed.

Lemma bind_emit (x : output) (k : unit -> M L B) :
  bind (emit x) k env h l = after [Out x] (k tt env (h ++ [Out x]) l).
Proof. reflexivity. Qed.

Lemma bind_perform_ok R (c : call R) (k : R -> M L B) (a : R) :
  respond env h c = inr a ->
  bind (perform c) k env h l =
  after [Called c (inr a)] (k a env (h ++ [Called c (inr a)]) l).
Proof. intros E. unfold bind, perform. cbn. now rewrite E. Qed.

Lemma bind_perform_raise R (c : call R) (k : R -> M L B) (e : exn) :
  respond env h c = inl e ->
  bind (perform c) k env h l = Outcome (inl e) l [Called c (inl e)].
Proof. intros E. unfold bind, perform. cbn. now rewrite E. Qed.

Lemma bind_path_exists (p : string) (k : bool -> M L B) :
  bind (path_exists p) k env h l =
  let ev := Called (os_path_exists p) (respond env h (os_path_exists p)) in
  after [ev] (k (exists_answer (respond env h (os_path_exists p))) env (h ++ [ev]) l).
Proof. reflexivity. Qed.

Lemma bind_ok A (m : M L A) (k : A -> M L B) a l1 ev1 :
  m env h l = Outcome (inr a) l1 ev1 ->
  bind m k env h l = after ev1 (k a env (h ++ ev1) l1).
Proof. intros E. unfold bind. now rewrite E. Qed.

Lemma bind_raise A (m : M L A) (k : A -> M L B) e l1 ev1 :
  m env h l = Outcome (inl e) l1 ev1 ->
  bind m k env h l = Outcome (inl e) l1 ev1.
Proof. intros E. unfold bind. now rewrite E. Qed.

Lemma bind_lift_ok A (a : A) (k : A -> M L B) :
  bind (lift (inr a)) k env h l = k a env h l.
Proof. unfold bind, lift. cbn. rewrite app_nil_r. apply after_nil. Qed.

Lemma bind_lift_raise A (e : exn) (k : A -> M L B) :
  bind (lift (inl e)) k env h l = Outcome (inl e) l [].
Proof. reflexivity. Qed.

Lemma bind_ret_r (m : M L B) : bind m ret env h l = m env h l.
Proof.
  unfold bind, ret, after. destruct (m env h l) as [[e|a] l1 ev1]; cbn;
    [reflexivity|]. now rewrite app_nil_r.
Qed.

End BindEquations.

Arguments bind_ok {L B env h l A m} k {a l1 ev1} _.
Arguments bind_raise {L B env h l A m} k {e l1 ev1} _.
Arguments bind_perform_ok {L B env h l R c} k {a} _.
Arguments bind_perform_raise {L B env h l R c} k {e} _.

Lemma bind_assoc {L A B C} (m : M L A) (k1 : A -> M L B) (k2 : B -> M L C) env h l :
  bind (bind m k1) k2 env h l = bind m (fun a => bind (k1 a) k2) env h l.
Proof.
  unfold bind, after. destruct (m env h l) as [[e|a] l1 ev1]; cbn; [reflexivity|].
  destruct (k1 a env (h ++ ev1) l1) as [[e|b] l2 ev2]; cbn; [reflexivity|].
  rewrite <- !app_assoc. reflexivity.
Qed.

(** Symbolic execution of a hypothesis [E : m env h l = Outcome r l' evs],
    with [r], [l'], [evs] variables, one operation at a time; every call
    splits on the environment's answer.  A computation the tactic does not
    know is left as a hypothesis about its outcome. *)
Ltac run E :=
  cbv beta zeta in E;
  lazymatch type of E with
  | bind (bind _ _) _ _ _ _ = _ => rewrite bind_assoc in E; run E
  | bind (ret _) _ _ _ _ = _ => rewrite bind_ret in E; run E
  | bind the_env _ _ _ _ = _ => rewrite bind_the_env in E; run E
  | bind get_vars _ _ _ _ = _ => rewrite bind_get_vars in E; run E
  | bind (set_vars _) _ _ _ _ = _ => rewrite bind_set_vars in E; run E
  | bind (emit _) _ _ _ _ = _ => rewrite bind_emit in E; run E
  | bind (path_exists _) _ _ _ _ = _ => rewrite bind_path_exists in E; run E
  | bind (lift ?r) _ _ _ _ = _ =>
      let A := fresh "A" in
      let e := fresh "e" in
      let a := fresh "a" in
      destruct r as [e|a] eqn:A;
      [ rewrite bind_lift_raise in E | rewrite bind_lift_ok in E ]; run E
  | bind (perform ?c) ?k ?env ?h ?l = _ =>
      let R := fresh "R" in
      let r := fresh "r" in
      destruct (respond env h c) as [r|r] eqn:R;
      [ rewrite (bind_perform_raise k R) in E; run E
      | rewrite (bind_perform_ok k R) in E; run E ]
  | bind (if ?b then _ else _) _ _ _ _ = _ =>
      let B := fresh "B" in destruct b eqn:B; run E
  | bind ?m ?k ?env ?h ?l = _ =>
      let Em := fresh "E" in
      let e := fresh "e" in
      let a := fresh "a" in
      let l1 := fresh "l" in
      let ev1 := fresh "ev" in
      destruct (m env h l) as [[e|a] l1 ev1] eqn:Em;
      [ rewrite (bind_raise k Em) in E | rewrite (bind_ok k Em) in E ];
      run Em; run E
  | try_except ?m ?handler ?env ?h ?l = _ =>
      let Em := fresh "E" in
      let r1 := fresh "r" in
      let l1 := fresh "l" in
      let ev1 := fresh "ev" in
      unfold try_except in E; cbv zeta in E;
      destruct (m env h l) as [r1 l1 ev1] eqn:Em;
      cbn [result vars events] in E; run Em;
      cbv beta iota in E; run E
  | after ?evs ?X = _ =>
      let E' := fresh "E" in
      let r1 := fresh "r" in
      let l1 := fresh "l" in
      let ev1 := fresh "ev" in
      destruct X as [r1 l1 ev1] eqn:E';
      unfold after in E; cbn [result vars events] in E; run E; run E'
  | Outcome _ _ _ = Outcome _ _ _ => inversion E; subst; clear E
  | emit _ _ _ _ = _ => unfold emit in E; run E
  | ret _ _ _ _ = _ => unfold ret in E; run E
  | raise _ _ _ _ = _ => unfold raise in E; run E
  | lift _ _ _ _ = _ => unfold lift in E; run E
  | set_vars _ _ _ _ = _ => unfold set_vars in E; run E
  | perform ?c ?env ?h ?l = _ =>
      let R := fresh "R" in
      let r := fresh "r" in
      unfold perform in E; cbv zeta in E;
      destruct (respond env h c) as [r|r] eqn:R; run E
  | (if ?b then _ else _) _ _ _ = _ =>
      let B := fresh "B" in destruct b eqn:B; run E
  | _ => idtac
  end.

(** *** Rules for [only] *)

Section OnlyRules.

Context {L : Type} (allowed : event -> bool).

Lemma only_ret A (a : A) : only (L:=L) allowed (ret a).
Proof. intros env h l. reflexivity. Qed.

Lemma only_raise A (e : exn) : only (L:=L) (A:=A) allowed (raise e).
Proof. intros env h l. reflexivity. Qed.

Lemma only_lift A (r : exn + A) : only (L:=L) allowed (lift r).
Proof. intros env h l. reflexivity. Qed.

Lemma only_the_env : only (L:=L) allowed the_env.
Proof. intros env h l. reflexivity. Qed.

Lemma only_get_vars : only (L:=L) allowed get_vars.
Proof. intros env h l. reflexivity. Qed.

Lemma only_set_vars (l' : L) : only allowed (set_vars l').
Proof. intros env h l. reflexivity. Qed.

Lemma only_emit (o : output) :
  allowed (Out o) = true -> only (L:=L) allowed (emit o).
Proof. intros H env h l. cbn. now rewrite H. Qed.

Lemma only_perform R (c : call R) :
  (forall r, allowed (Called c r) = true) -> only (L:=L) allowed (perform c).
Proof. intros H env h l. cbn. now rewrite H. Qed.

Lemma only_path_exists (p : string) :
  (forall r, allowed (Called (os_path_exists p) r) = true) ->
  only (L:=L) allowed (path_exists p).
Proof. intros H env h l. cbn. now rewrite H. Qed.

Lemma only_bind A B (m : M L A) (k : A -> M L B) :
  only allowed m -> (forall a, only allowed (k a)) -> only allowed (bind m k).
Proof.
  intros Hm Hk env h l. unfold bind. specialize (Hm env h l).
  destruct (m env h l) as [[e|a] l1 ev1]; cbn in *; [assumption|].
  rewrite forallb_app, Hm. apply Hk.
Qed.

Lemma only_try_except A (m : M L A) (handler : exn -> M L A) :
  only allowed m -> (forall e, only allowed (handler e)) ->
  only allowed (try_except m handler).
Proof.
  intros Hm Hk env h l. unfold try_except. specialize (Hm env h l).
  destruct (m env h l) as [[e|a] l1 ev1]; cbn in *; [|assumption].
  rewrite forallb_app, Hm. apply Hk.
Qed.

Lemma only_for_each X (xs : list X) (body : X -> M L unit) :
  (forall x, only allowed (body x)) -> only allowed (for_each xs body).
Proof.
  intros Hb. induction xs as [|x xs IH]; cbn.
  - apply only_ret.
  - apply only_bind; [apply Hb|intros _; exact IH].
Qed.

Lemma only_no_pick X (f : event -> option X) (evs : list event) :
  (forall ev, allowed ev = true -> f ev = None) ->
  forallb allowed evs = true -> pick f evs = [].
Proof.
  intros Hf. induction evs as [|ev evs IH]; cbn; [reflexivity|].
  intros H. apply andb_prop in H as [Hev Hevs].
  rewrite (Hf ev Hev). cbn. auto.
Qed.

End OnlyRules.

Ltac only_tac :=
  repeat first
    [ apply only_bind; [|intros ?]
    | apply only_try_except; [|intros ?]
    | apply only_for_each; intros ?
    | apply only_ret | apply only_raise | apply only_lift | apply only_the_env
    | apply only_get_vars | apply only_set_vars
    | apply only_emit; reflexivity
    | apply only_perform; intros ?; reflexivity
    | apply only_path_exists; intros ?; reflexivity
    | match goal with |- only _ (if ?b then _ else _) => destruct b end
    | match goal with |- only _ (match ?x with _ => _ end) => destruct x end
    | progress cbv beta zeta ].


(** * The chunk loop *)

Section ChunkLoop.

Variables (audio_path : string) (cd : Z) (duration : Q) (n : Z).

Local Abbreviation step := (chunk_step audio_path cd duration n).

(** A completed iteration: one sub-clip, one transcription, whose text is
    appended followed by a space. *)
Lemma chunk_step_ok i env h l o :
  step i env h l = o ->
  result o = inr tt ->
  exists text,
    pick transcription_text (events o) = [text] /\
    pick transcription_request (events o) = [chunk_filename audio_path i] /\
    pick subclip_request (events o) =
      [(Plan.start_time i cd, Plan.end_time i cd duration)] /\
    full_transcript (vars o) = (full_transcript l ++ (text ++ " "))%string.
Proof.
  unfold step, chunk_step, transcribe_chunk, register, assign_full_transcript.
  intros E. destruct o as [r l' evs]. run E; try discriminate.
  intros _. eexists. cbn. repeat split.
Qed.

Lemma chunk_step_only i : only chunk_step_event (step i).
Proof.
  unfold step, chunk_step, transcribe_chunk, register, assign_full_transcript.
  only_tac.
Qed.

Lemma chunk_loop_only xs : only chunk_step_event (for_each xs step).
Proof. apply only_for_each. exact chunk_step_only. Qed.

Lemma append_empty_r (s : string) : (s ++ EmptyString)%string = s.
Proof. induction s; cbn; congruence. Qed.

Lemma append_assoc (a b c : string) : ((a ++ b) ++ c)%string = (a ++ (b ++ c))%string.
Proof. induction a; cbn; congruence. Qed.

(** A completed loop: one transcription per index, in order, and the
    transcript grows by every text followed by a space. *)
Lemma chunk_loop_ok xs : forall env h l o,
  for_each xs step env h l = o ->
  result o = inr tt ->
  pick transcription_request (events o) = map (chunk_filename audio_path) xs /\
  pick subclip_request (events o) =
    map (fun i => (Plan.start_time i cd, Plan.end_time i cd duration)) xs /\
  full_transcript (vars o) =
    (full_transcript l
       ++ each_followed_by_space (pick transcription_text (events o)))%string.
Proof.
  induction xs as [|i xs IH]; intros env h l [r l' evs] E; cbn [for_each] in E.
  - run E. intros _. cbn. now rewrite append_empty_r.
  - run E; [discriminate|]. cbn [result vars events]. intros Hres. subst.
    destruct a.
    destruct (chunk_step_ok E0 eq_refl) as (text & Ht & Hr & Hs & Hf).
    destruct (IH _ _ _ _ E1 eq_refl) as (IHr & IHs & IHf).
    cbn [vars events] in *.
    rewrite !pick_app, Ht, Hr, Hs, IHr, IHs, IHf, Hf. cbn.
    repeat split. now rewrite !append_assoc.
Qed.

End ChunkLoop.

(** *** Rules for [keeps] *)

Section KeepsRules.

Context {L X : Type} (f : L -> X).

Lemma keeps_ret {A} (a : A) : keeps f (ret a).
Proof. intros env h l. reflexivity. Qed.

Lemma keeps_raise {A} (e : exn) : keeps (A:=A) f (raise e).
Proof. intros env h l. reflexivity. Qed.

Lemma keeps_lift {A} (r : exn + A) : keeps f (lift r).
Proof. intros env h l. reflexivity. Qed.

Lemma keeps_the_env : keeps f the_env.
Proof. intros env h l. reflexivity. Qed.

Lemma keeps_emit (o : output) : keeps f (emit o).
Proof. intros env h l. reflexivity. Qed.

Lemma keeps_perform {R} (c : call R) : keeps f (perform c).
Proof. intros env h l. reflexivity. Qed.

Lemma keeps_path_exists (p : string) : keeps f (path_exists p).
Proof. intros env h l. reflexivity. Qed.

Lemma keeps_bind {A B} (m : M L A) (k : A -> M L B) :
  keeps f m -> (forall a, keeps f (k a)) -> keeps f (bind m k).
Proof.
  intros Hm Hk env h l. unfold bind. specialize (Hm env h l).
  destruct (m env h l) as [[e|a] l1 ev1]; cbn in *; [assumption|].
  rewrite <- Hm. apply Hk.
Qed.

Lemma keeps_try_except {A} (m : M L A) (handler : exn -> M L A) :
  keeps f m -> (forall e, keeps f (handler e)) -> keeps f (try_except m handler).
Proof.
  intros Hm Hk env h l. unfold try_except. specialize (Hm env h l).
  destruct (m env h l) as [[e|a] l1 ev1]; cbn in *; [|assumption].
  rewrite <- Hm. apply Hk.
Qed.

End KeepsRules.

Lemma register_keeps_transcript (file : string) : keeps full_transcript (register file).
Proof. intros env h l. reflexivity. Qed.

Ltac keeps_tac :=
  repeat first
    [ apply register_keeps_transcript
    | apply keeps_bind; [|intros ?]
    | apply keeps_try_except; [|intros ?]
    | apply keeps_ret | apply keeps_raise | apply keeps_lift | apply keeps_the_env
    | apply keeps_emit | apply keeps_perform | apply keeps_path_exists
    | match goal with |- keeps _ (if ?b then _ else _) => destruct b end
    | progress cbv beta zeta ].

(** * The stages of [process_and_transcribe] *)

Lemma working_audio_only input_path :
  only extraction_event (working_audio input_path).
Proof. unfold working_audio, extract_audio, register. only_tac. Qed.

Lemma working_audio_keeps_transcript input_path :
  keeps full_transcript (working_audio input_path).
Proof. unfold working_audio, extract_audio. keeps_tac. Qed.

(** What the [finally] loop does on a list of files. *)
Lemma cleanup_loop files : forall env h l,
  let o := for_each files remove_quietly env h l in
  result o = inr tt /\ vars o = l /\ removal_attempts files (events o).
Proof.
  induction files as [|file files IH]; intros env h l; cbn [for_each].
  - cbn. auto.
  - cbv zeta.
    destruct ((remove_quietly file ;; for_each files remove_quietly) env h l)
      as [r l' evs] eqn:E.
    unfold remove_quietly in E at 1. run E;
      match goal with
      | H : for_each files remove_quietly env ?h' ?l1 = _ |- _ =>
          pose proof (IH env h' l1) as IH'; cbv zeta in IH'; rewrite H in IH'
      end;
      cbn [result vars events] in *; destruct IH' as (-> & -> & Ha);
      (split; [reflexivity|split; [reflexivity|]]);
      eexists _, _; (split; [reflexivity|]); rewrite B;
      try (eexists _, _; (split; [reflexivity|])); exact Ha.
Qed.

Lemma cleanup_never_raises env h l : result (cleanup env h l) = inr tt.
Proof.
  unfold cleanup. rewrite bind_get_vars. apply (cleanup_loop _ env h l).
Qed.

(** The [finally] block tries each registered file once, in order. *)
Lemma cleanup_attempts env h l :
  removal_attempts (temp_files_to_cleanup l) (events (cleanup env h l)).
Proof.
  unfold cleanup. rewrite bind_get_vars. apply (cleanup_loop _ env h l).
Qed.

Lemma cleanup_only : only cleanup_event cleanup.
Proof. unfold cleanup, remove_quietly. only_tac. Qed.

(** * Reading a run's events *)

Ltac event_cases :=
  let ev := fresh "ev" in
  let c := fresh "c" in
  let x := fresh "x" in
  intros ev; destruct ev as [? c ?|x]; [destruct c|destruct x]; cbn; congruence.

(** Remove from the goal the observations that the events [evs] of
    [H : forallb allowed evs = true] cannot contain. *)
Ltac drop_silent H :=
  lazymatch type of H with
  | forallb ?allowed ?evs = true =>
      repeat match goal with
        | |- context [pick ?f evs] =>
            rewrite (@only_no_pick allowed _ f evs ltac:(event_cases) H)
        end
  end.

Ltac note_stages :=
  repeat match goal with
    | E : working_audio ?i ?env ?h ?l = Outcome _ ?l1 ?ev |- _ =>
        lazymatch goal with
        | _ : forallb extraction_event ev = true |- _ => fail
        | _ =>
            let H := fresh "Hwa" in
            let K := fresh "Kwa" in
            pose proof (working_audio_only i env h l) as H;
            pose proof (working_audio_keeps_transcript i env h l) as K;
            rewrite E in H, K; cbn [events vars] in H, K
        end
    | E : for_each ?xs (chunk_step ?p ?cd ?d ?n) ?env ?h ?l = Outcome _ _ ?ev |- _ =>
        lazymatch goal with
        | _ : forallb chunk_step_event ev = true |- _ => fail
        | _ =>
            let H := fresh "Hloop" in
            pose proof (chunk_loop_only p cd d n xs env h l) as H;
            rewrite E in H; cbn [events] in H
        end
    end.

Ltac drop_all_silent :=
  rewrite ?pick_app;
  repeat match goal with
    | H : forallb _ _ = true |- _ => progress drop_silent H
    end;
  repeat match goal with
    | |- context [events (cleanup ?env ?h ?l)] =>
        let H := fresh "Hfin" in
        let fin := fresh "fin" in
        pose proof (cleanup_only env h l) as H;
        set (fin := events (cleanup env h l)) in *; clearbody fin;
        drop_silent H
    end.

(** The cases of a run of [process_and_transcribe]. *)
Ltac pipeline_cases E :=
  unfold try_body, size_and_transcribe, transcribe_in_chunks, transcribe_chunk,
    assign_full_transcript in E;
  run E; note_stages.

Lemma pick_nil {X} (f : event -> option X) : pick f [] = [].
Proof. reflexivity. Qed.

Lemma pick_cons {X} (f : event -> option X) ev evs :
  pick f (ev :: evs) =
  match f ev with Some x => x :: pick f evs | None => pick f evs end.
Proof. unfold pick. cbn. now destruct (f ev). Qed.

Ltac read_events :=
  repeat first [rewrite pick_app | rewrite pick_cons | rewrite pick_nil];
  drop_all_silent;
  cbn [sized_file transcription_request transcription_text planning_request
       subclip_request measured_duration failed_audio_close removal_request
       error_shown transcript_output app].

(** Open a run of [process_and_transcribe] into its cases, with the
    events of each in the goal. *)
Ltac open_run input_path env h :=
  unfold process_and_transcribe; cbv zeta;
  let E := fresh "E" in
  let rb := fresh "rb" in
  let lb := fresh "lb" in
  let evb := fresh "evb" in
  destruct (try_body input_path env h (Locals [] EmptyString)) as [rb lb evb] eqn:E;
  pipeline_cases E; cbn [result vars events]; rewrite ?bind_emit;
  unfold after; cbn [result vars events]; read_events.

Lemma small_means_not_large size_bytes :
  (Plan.get_file_size_mb size_bytes <= Plan.OPENAI_LIMIT_MB)%Q ->
  Qle_bool (Plan.get_file_size_mb size_bytes) Plan.OPENAI_LIMIT_MB = false -> False.
Proof. intros H B. apply Qle_bool_iff in H. congruence. Qed.

(** C2.  When the size measured for the working audio is at most 25 MB, the
    run sends exactly one transcription request, for that very file, and
    neither opens the clip for its duration nor cuts or writes a sub-clip. *)
Theorem small_file_bypass {L} input_path env h (l : L) path size_bytes :
  let o := process_and_transcribe input_path env h l in
  In (path, size_bytes) (pick sized_file (events o)) ->
  (Plan.get_file_size_mb size_bytes <= Plan.OPENAI_LIMIT_MB)%Q ->
  pick transcription_request (events o) = [path] /\
  pick planning_request (events o) = [].
Proof.
  cbv zeta. open_run input_path env h; intros Hin Hsmall.
  all: try (destruct Hin as [Hin|[]]; inversion Hin; subst).
  all: try (exfalso; eapply small_means_not_large; eassumption).
  all: try contradiction.
  all: split; reflexivity.
Qed.

Lemma large_file (file_size_mb : Q)
    (B : Qle_bool file_size_mb Plan.OPENAI_LIMIT_MB = false) :
  (25 < file_size_mb)%Q.
Proof.
  apply Qnot_le_lt. intros H. apply Qle_bool_iff in H.
  unfold Plan.OPENAI_LIMIT_MB in B. congruence.
Qed.

Lemma to_float_zero (q : Q) (Hq : (q == 0)%Q) : to_float q = finite 0.
Proof.
  rewrite to_float_finite; rewrite (@nearest_double_0 _ Hq);
    [reflexivity|vm_compute; reflexivity].
Qed.

(** A clip of duration 0 on the chunking path: chunks of 10 seconds, none
    of them. *)
Lemma chunk_duration_zero (file_size_mb duration : Q)
    (B : Qle_bool file_size_mb Plan.OPENAI_LIMIT_MB = false)
    (Hd : (duration == 0)%Q) :
  Plan.chunk_duration file_size_mb duration = inr 10.
Proof.
  destruct (@ratio_bounds file_size_mb (@large_file _ B)) as (Hr & _).
  unfold Plan.chunk_duration, float_truediv.
  destruct (Qeq_bool file_size_mb 0) eqn:E.
  - apply Qeq_bool_iff in E. pose proof (@large_file _ B). lra.
  - rewrite Hr. cbn [float_mul]. rewrite (@to_float_zero _); [reflexivity|].
    rewrite Hd. ring.
Qed.

Lemma num_chunks_zero (duration : Q) (Hd : (duration == 0)%Q) :
  Plan.num_chunks duration 10 = inr 0.
Proof.
  unfold Plan.num_chunks.
  change (float_of_int 10) with (inr (B := Q) (A := exn) 10%Q).
  unfold float_truediv. change (Qeq_bool 10 0) with false. cbv iota.
  rewrite (@to_float_zero _); [reflexivity|]. rewrite Hd. reflexivity.
Qed.

Lemma followed_by_space_is_join_plus_space (texts : list string) :
  texts <> [] ->
  each_followed_by_space texts = (join_with_space texts ++ " ")%string.
Proof.
  induction texts as [|t [|t' rest] IH]; intros Hne.
  - contradiction.
  - reflexivity.
  - change (each_followed_by_space (t :: t' :: rest))
      with (t ++ " " ++ each_followed_by_space (t' :: rest))%string.
    rewrite IH by discriminate.
    change (join_with_space (t :: t' :: rest))
      with (t ++ " " ++ join_with_space (t' :: rest))%string.
    now rewrite !append_assoc.
Qed.

(** C3, as the code has it.  In a run that took the chunking path and
    answered a transcript, lines 164-167 raised nothing, the transcription
    requests are those of the chunk files in index order, the sub-clips
    requested are the chunk plan computed from the measured size and
    duration, and the transcript is every chunk text followed by one space:
    the texts joined by single spaces, then one more space at the end. *)
Theorem chunked_transcript_keeps_trailing_space
    {L} input_path env h (l : L) path size_bytes duration text :
  let o := process_and_transcribe input_path env h l in
  let file_size_mb := Plan.get_file_size_mb size_bytes in
  In (path, size_bytes) (pick sized_file (events o)) ->
  In duration (pick measured_duration (events o)) ->
  result o = inr (Some text) ->
  (exists cd n,
     Plan.chunk_duration file_size_mb duration = inr cd /\
     Plan.num_chunks duration cd = inr n /\
     pick transcription_request (events o) =
       map (chunk_filename path) (Plan.range n)) /\
  Plan.chunk_plan file_size_mb duration = inr (pick subclip_request (events o)) /\
  text = each_followed_by_space (pick transcription_text (events o)) /\
  (pick transcription_text (events o) <> [] ->
   text = (join_with_space (pick transcription_text (events o)) ++ " ")%string).
Proof.
  cbv zeta. open_run input_path env h; intros Hsize Hdur Hres.
  all: try discriminate.
  all: try contradiction.
  all: destruct Hsize as [Hsize|[]]; inversion Hsize; subst.
  all: destruct Hdur as [Hdur|[]]; subst.
  match goal with
  | E : for_each _ _ _ _ _ = Outcome (inr ?u) _ _ |- _ =>
      destruct u;
      destruct (@chunk_loop_ok _ _ _ _ _ _ _ _ _ E eq_refl) as (Hreq & Hsub & Htext)
  end.
  cbn [vars events] in *. rewrite Kwa in Htext. cbn in Htext.
  rewrite !app_nil_r. inversion Hres; subst text.
  match goal with
  | A : Plan.chunk_duration _ _ = inr ?cd, A' : Plan.num_chunks _ ?cd = inr ?n |- _ =>
      split; [exists cd, n; auto|]; unfold Plan.chunk_plan; rewrite A, A'
  end.
  split; [now rewrite Hsub|]. split; [exact Htext|].
  intros Hne. rewrite Htext. now apply followed_by_space_is_join_plus_space.
Qed.

(** C6.  When the clip opened on the chunking path has duration 0, no
    sub-clip is cut and no transcription request is sent; and unless
    [audio.close()] itself raises, the run answers the empty string and shows
    no error. *)
Theorem zero_duration_gives_empty_transcript
    {L} input_path env h (l : L) duration :
  let o := process_and_transcribe input_path env h l in
  In duration (pick measured_duration (events o)) ->
  (duration == 0)%Q ->
  pick subclip_request (events o) = [] /\
  pick transcription_request (events o) = [] /\
  (pick failed_audio_close (events o) = [] ->
   result o = inr (Some EmptyString) /\ pick error_shown (events o) = []).
Proof.
  cbv zeta. open_run input_path env h; intros Hdur Hzero.
  all: try contradiction.
  all: destruct Hdur as [Hdur|[]]; subst.
  all: match goal with
       | B : Qle_bool ?fs _ = false, A : Plan.chunk_duration ?fs _ = _ |- _ =>
           rewrite (@chunk_duration_zero _ _ B Hzero) in A; inversion A; subst
       end.
  all: match goal with
       | A : Plan.num_chunks _ _ = _ |- _ =>
           rewrite (@num_chunks_zero _ Hzero) in A; inversion A; subst
       end.
  all: cbn [Plan.range Z.to_nat seq map for_each] in E; run E; cbn [pick flat_map app].
  - repeat apply conj; try reflexivity. discriminate.
  - repeat apply conj; try reflexivity. intros _. now rewrite Kwa.
Qed.

(** C7, as the code has it.  A working audio of 0 bytes is at most 25 MB:
    the run sends one transcription request for it and plans nothing; when
    that request is answered, the answer is the transcript and no error is
    shown. *)
Theorem zero_size_is_transcribed_directly
    {L} input_path env h (l : L) path :
  let o := process_and_transcribe input_path env h l in
  In (path, 0%N) (pick sized_file (events o)) ->
  pick transcription_request (events o) = [path] /\
  pick planning_request (events o) = [] /\
  (forall text, In text (pick transcription_text (events o)) ->
     result o = inr (Some text) /\ pick error_shown (events o) = []).
Proof.
  cbv zeta. open_run input_path env h; intros Hin.
  all: try contradiction.
  all: destruct Hin as [Hin|[]]; inversion Hin; subst.
  all: try discriminate.
  all: repeat apply conj; try reflexivity.
  all: intros text Ht; cbn [In] in Ht; try contradiction.
  destruct Ht as [<-|[]]. split; reflexivity.
Qed.

Lemma try_body_only input_path : only body_event (try_body input_path).
Proof.
  unfold try_body, working_audio, extract_audio, size_and_transcribe,
    transcribe_in_chunks, chunk_step, transcribe_chunk, register,
    assign_full_transcript.
  only_tac.
Qed.


(** A failed call inside an iteration ends the loop with that exception. *)
Lemma chunk_loop_failure audio_path cd duration n xs : forall env h l o e,
  for_each xs (chunk_step audio_path cd duration n) env h l = o ->
  In e (pick stage_failure (events o)) -> result o = inl e.
Proof.
  induction xs as [|i xs IH]; intros env h l [r l' evs] e E; cbn [for_each] in E.
  - run E. intros [].
  - unfold chunk_step at 1, transcribe_chunk, register, assign_full_transcript in E.
    run E; cbn [result events];
      repeat first [rewrite pick_app | rewrite pick_cons | rewrite pick_nil];
      cbn [stage_failure app In].
    all: try (intros [<-|[]]; reflexivity).
    intros Hin.
    match goal with
    | H : for_each xs _ _ _ _ = _ |- _ => exact (IH _ _ _ _ _ H Hin)
    end.
Qed.

Lemma stage_failure_aborts_body input_path env h l e :
  In e (pick stage_failure (events (try_body input_path env h l))) ->
  result (try_body input_path env h l) = inl e.
Proof.
  destruct (try_body input_path env h l) as [rb lb evb] eqn:E.
  pipeline_cases E; cbn [result events];
    repeat first [rewrite pick_app | rewrite pick_cons | rewrite pick_nil];
    repeat match goal with
      | H : forallb extraction_event _ = true |- _ => progress drop_silent H
      end;
    cbn [stage_failure app In].
  all: try (intros []; fail).
  all: try (intros [<-|[]]; reflexivity).
  all: intros Hin;
    match goal with
    | H : for_each _ _ _ _ _ = _ |- _ =>
        pose proof (fun Hf => chunk_loop_failure _ _ _ _ _ _ _ _ e H Hf) as Hloop';
        cbn [result events] in Hloop'
    end.
  - exact (Hloop' Hin).
  - apply in_app_or in Hin as [Hin|[<-|[]]]; [|reflexivity].
    specialize (Hloop' Hin). discriminate.
  - apply in_app_or in Hin as [Hin|[]].
    specialize (Hloop' Hin). discriminate.
Qed.

(** C4, as the code has it.  A call of the sizing, chunking or
    transcription stage that raises makes the [try] body raise that
    exception; and whenever the body raises, whatever the step,
    [process_and_transcribe] does not raise: it answers [None] (no partial
    transcript), shows the exception's message through [st.error], and
    then runs the [finally] loop over every file registered so far. *)
Theorem failure_aborts_and_cleans_up {L} input_path env h (l : L) :
  let body := try_body input_path env h (Locals [] EmptyString) in
  let o := process_and_transcribe input_path env h l in
  (forall e, In e (pick stage_failure (events body)) -> result body = inl e) /\
  (forall e, result body = inl e ->
     result o = inr None /\
     pick error_shown (events o) = [("An error occurred: " ++ message e)%string] /\
     exists removals,
       events o =
         events body
           ++ Out (st_error ("An error occurred: " ++ message e)) :: removals /\
       removal_attempts (temp_files_to_cleanup (vars body)) removals).
Proof.
  cbv zeta. split; [intros e; apply stage_failure_aborts_body|].
  intros e E. unfold process_and_transcribe. cbv zeta. rewrite E.
  pose proof (try_body_only input_path env h (Locals [] EmptyString)) as Hb.
  destruct (try_body input_path env h (Locals [] EmptyString)) as [rb l1 evs1].
  cbn [result vars events] in *. rewrite bind_emit. unfold after.
  cbn [result vars events app]. split; [reflexivity|split].
  - rewrite pick_app, pick_cons. cbn [error_shown].
    rewrite (@only_no_pick body_event _ error_shown _ ltac:(event_cases) Hb).
    cbn [app]. f_equal.
    pose proof (cleanup_only env
      ((h ++ evs1) ++ [Out (st_error ("An error occurred: " ++ message e))]) l1) as H.
    now rewrite (@only_no_pick cleanup_event _ error_shown _ ltac:(event_cases) H).
  - eexists. split; [reflexivity|]. apply cleanup_attempts.
Qed.

(** * The speaker labeler and the upload handler *)

(** C8.  When the text-generation request raises, [diarize_with_gpt4] does
    not raise: it shows the error and answers the transcript text it was
    given, unchanged. *)
Theorem diarize_fails_open {L} env h (l : L) transcript_text e :
  respond env h (chat_completions_create transcript_text) = inl e ->
  let o := diarize_with_gpt4 transcript_text env h l in
  result o = inr transcript_text /\
  vars o = l /\
  events o =
    [Called (chat_completions_create transcript_text) (inl e);
     Out (st_error ("Diarization error: " ++ message e))].
Proof.
  intros R. cbv zeta.
  destruct (diarize_with_gpt4 transcript_text env h l) as [r l' evs] eqn:E.
  unfold diarize_with_gpt4 in E. run E; [|discriminate].
  inversion R; subst. cbn. auto.
Qed.

Lemma diarize_never_raises {L} env h (l : L) transcript_text :
  exists text, result (diarize_with_gpt4 transcript_text env h l) = inr text.
Proof.
  destruct (diarize_with_gpt4 transcript_text env h l) as [r l' evs] eqn:E.
  unfold diarize_with_gpt4 in E. run E; eexists; reflexivity.
Qed.

Lemma delete_with_retries_only {L} attempts path :
  only (L:=L) deletion_event (delete_with_retries attempts path).
Proof.
  induction attempts as [|more IH]; cbn [delete_with_retries]; [apply only_ret|].
  apply only_try_except; [only_tac|]. intros e.
  destruct (is_PermissionError e); [|only_tac].
  apply only_bind; [only_tac|]. intros _. exact IH.
Qed.

Lemma delete_with_retries_never_raises {L} attempts path : forall env h (l : L),
  result (delete_with_retries attempts path env h l) = inr tt.
Proof.
  induction attempts as [|more IH]; intros env h l; cbn [delete_with_retries];
    [reflexivity|].
  destruct (try_except _ _ env h l) as [r l' evs] eqn:E. run E.
  - match goal with
    | H : delete_with_retries more path env ?h' ?l1 = _ |- _ =>
        pose proof (IH env h' l1) as IH'; now rewrite H in IH'
    end.
  - reflexivity.
  - cbn. match goal with |- inr ?x = _ => now destruct x end.
Qed.

(** The deletion loop asks for at most [attempts] removals. *)
Lemma delete_with_retries_bounded {L} attempts path : forall env h (l : L),
  (List.length (pick removal_request
                  (events (delete_with_retries attempts path env h l)))
   <= attempts)%nat.
Proof.
  induction attempts as [|more IH]; intros env h l; cbn [delete_with_retries];
    [cbn; lia|].
  destruct (try_except _ _ env h l) as [r l' evs] eqn:E. run E; cbn [events].
  - rewrite pick_cons, pick_cons. cbn [removal_request List.length].
    match goal with
    | H : delete_with_retries more path env ?h' ?l1 = _ |- _ =>
        pose proof (IH env h' l1) as IH'; rewrite H in IH'
    end.
    cbn [events] in IH'. lia.
  - cbn. lia.
  - cbn. lia.
Qed.

Lemma process_and_transcribe_only {L} input_path :
  only (L:=L) pipeline_event (process_and_transcribe input_path).
Proof.
  assert (Hbody : only pipeline_event (try_body input_path)).
  { unfold try_body, working_audio, extract_audio, size_and_transcribe,
      transcribe_in_chunks, chunk_step, transcribe_chunk, register,
      assign_full_transcript. only_tac. }
  assert (Hfin : only pipeline_event cleanup)
    by (unfold cleanup, remove_quietly; only_tac).
  intros env h l. unfold process_and_transcribe. cbv zeta.
  specialize (Hbody env h (Locals [] EmptyString)).
  destruct (try_body input_path env h (Locals [] EmptyString)) as [[e|[]] lb evb];
    cbn [result vars events] in *; rewrite forallb_app, Hbody; cbn [andb].
  - rewrite bind_emit. unfold after. cbn. apply Hfin.
  - apply Hfin.
Qed.

Lemma process_and_transcribe_never_raises {L} input_path env h (l : L) :
  exists v, result (process_and_transcribe input_path env h l) = inr v.
Proof.
  unfold process_and_transcribe. cbv zeta.
  destruct (result (try_body _ _ _ _)); eexists; reflexivity.
Qed.

(** C10.  [process_and_transcribe] answers [None] whenever its body raises;
    and a run that answers the empty string is handled by the upload handler
    exactly like one that answers [None]: [transcript_result] stays [None]
    and neither "Done!", the transcript box nor the download button is
    shown. *)
Theorem empty_transcript_shown_as_failure tmp_file_path enable_diarization env h :
  let run := process_and_transcribe tmp_file_path env h tt in
  let o := upload_run tmp_file_path enable_diarization env h tt in
  (forall e l1 evs1,
     try_body tmp_file_path env h (Locals [] EmptyString) = Outcome (inl e) l1 evs1 ->
     result run = inr None) /\
  (result run = inr None \/ result run = inr (Some EmptyString) ->
   result o = inr None /\ pick transcript_output (events o) = []).
Proof.
  cbv zeta. split.
  - intros e l1 evs1 E. unfold process_and_transcribe. cbv zeta. now rewrite E.
  - intros Hrun.
    destruct (upload_run tmp_file_path enable_diarization env h tt)
      as [r l' evs] eqn:E.
    unfold upload_run, upload_handler in E. run E.
    all: cbn [result] in Hrun; try (destruct Hrun; discriminate).
    all: try match goal with
         | H : delete_with_retries ?n ?p ?env ?h ?l = Outcome (inl _) _ _ |- _ =>
             pose proof (delete_with_retries_never_raises n p env h l) as Hd;
             rewrite H in Hd; discriminate
         end.
    all: assert (Ha : a = None \/ a = Some EmptyString)
           by (destruct Hrun as [Hrun|Hrun]; inversion Hrun; auto).
    all: match goal with
         | H : process_and_transcribe _ _ _ _ = _ |- _ =>
             pose proof (process_and_transcribe_only tmp_file_path env h tt) as Hp;
             rewrite H in Hp; cbn [events] in Hp
         end.
    all: try match goal with
         | H : delete_with_retries ?n ?p ?env ?h ?l = Outcome _ _ ?ev |- _ =>
             pose proof (delete_with_retries_only n p env h l) as Hd;
             rewrite H in Hd; cbn [events] in Hd
         end.
    all: destruct Ha; subst a; cbn [truthy String.eqb negb] in *.
    all: repeat first
           [ progress cbv beta iota in *
           | match goal with
             | H : ret _ _ _ _ = _ |- _ => run H
             | H : display_results _ _ _ _ = _ |- _ => unfold display_results in H
             end ].
    all: cbn [result events]; split; [reflexivity|].
    all: repeat first [rewrite pick_app | rewrite pick_cons | rewrite pick_nil];
         cbn [transcript_output app].
    all: rewrite (@only_no_pick pipeline_event _ transcript_output _ ltac:(event_cases) Hp).
    all: try rewrite (@only_no_pick deletion_event _ transcript_output _ ltac:(event_cases) Hd).
    all: reflexivity.
Qed.

(** * The claims on concrete runs *)

Local Open Scope string_scope.

Lemma small_file_bypass_witness :
  let o := process_and_transcribe "talk.mp3" (audio_world (10 * MB)%N 600) [] tt in
  In ("talk.mp3", (10 * MB)%N) (pick sized_file (events o)) /\
  (Plan.get_file_size_mb (10 * MB)%N <= Plan.OPENAI_LIMIT_MB)%Q /\
  pick transcription_request (events o) = ["talk.mp3"] /\
  pick planning_request (events o) = [].
Proof.
  cbv zeta.
  assert (Hin : In ("talk.mp3", (10 * MB)%N)
                  (pick sized_file
                     (events (process_and_transcribe "talk.mp3"
                                (audio_world (10 * MB)%N 600) [] tt))))
    by (vm_compute; left; reflexivity).
  assert (Hsmall : (Plan.get_file_size_mb (10 * MB)%N <= Plan.OPENAI_LIMIT_MB)%Q)
    by (vm_compute; discriminate).
  split; [exact Hin|split; [exact Hsmall|]].
  exact (@small_file_bypass unit "talk.mp3" (audio_world (10 * MB)%N 600) [] tt
           "talk.mp3" (10 * MB)%N Hin Hsmall).
Defined.

(** C3 fails as stated: two chunks give a transcript that ends with a
    space, which the space-joined texts do not. *)
Lemma chunked_transcript_not_space_joined :
  let o := process_and_transcribe "talk.mp3" (audio_world (30 * MB)%N 25) [] tt in
  pick transcription_text (events o) =
    ["[talk.mp3_part_0.mp3]"; "[talk.mp3_part_1.mp3]"] /\
  result o = inr (Some "[talk.mp3_part_0.mp3] [talk.mp3_part_1.mp3] ") /\
  result o <> inr (Some (join_with_space (pick transcription_text (events o)))).
Proof.
  cbv zeta. split; [|split]; vm_compute; [reflexivity|reflexivity|discriminate].
Qed.

Lemma chunked_transcript_keeps_trailing_space_witness :
  let o := process_and_transcribe "talk.mp3" (audio_world (30 * MB)%N 25) [] tt in
  In ("talk.mp3", (30 * MB)%N) (pick sized_file (events o)) /\
  In 25%Q (pick measured_duration (events o)) /\
  result o = inr (Some "[talk.mp3_part_0.mp3] [talk.mp3_part_1.mp3] ") /\
  "[talk.mp3_part_0.mp3] [talk.mp3_part_1.mp3] " =
    each_followed_by_space (pick transcription_text (events o)).
Proof.
  cbv zeta.
  assert (Hsize : In ("talk.mp3", (30 * MB)%N)
                    (pick sized_file
                       (events (process_and_transcribe "talk.mp3"
                                  (audio_world (30 * MB)%N 25) [] tt))))
    by (vm_compute; left; reflexivity).
  assert (Hdur : In 25%Q
                   (pick measured_duration
                      (events (process_and_transcribe "talk.mp3"
                                 (audio_world (30 * MB)%N 25) [] tt))))
    by (vm_compute; left; reflexivity).
  assert (Hres : result (process_and_transcribe "talk.mp3"
                           (audio_world (30 * MB)%N 25) [] tt) =
                 inr (Some "[talk.mp3_part_0.mp3] [talk.mp3_part_1.mp3] "))
    by (vm_compute; reflexivity).
  destruct (@chunked_transcript_keeps_trailing_space unit "talk.mp3"
              (audio_world (30 * MB)%N 25) [] tt "talk.mp3" (30 * MB)%N 25%Q
              "[talk.mp3_part_0.mp3] [talk.mp3_part_1.mp3] " Hsize Hdur Hres)
    as (_ & _ & Htext & _).
  split; [exact Hsize|split; [exact Hdur|split; [exact Hres|exact Htext]]].
Defined.

(** C4 fails as stated: when the transcription request of a small video
    is refused, the caller of [process_and_transcribe] is not handed the
    exception; it is answered [None], like after any other failure. *)
Lemma failure_is_not_raised_to_the_caller :
  let body := try_body "clip.mp4" transcription_down [] (Locals [] EmptyString) in
  let o := process_and_transcribe "clip.mp4" transcription_down [] tt in
  result body = inl unavailable /\
  result o = inr None /\
  result o <> inl unavailable.
Proof. cbv zeta. repeat apply conj; vm_compute; [reflexivity|reflexivity|discriminate]. Qed.

Lemma failure_aborts_and_cleans_up_witness :
  let o := process_and_transcribe "clip.mp4" transcription_down [] tt in
  result (try_body "clip.mp4" transcription_down [] (Locals [] EmptyString)) =
    inl unavailable /\
  result o = inr None /\
  pick error_shown (events o) = ["An error occurred: service unavailable"] /\
  pick removal_request (events o) = ["clip.mp4.mp3"].
Proof.
  cbv zeta.
  assert (Hbody : result (try_body "clip.mp4" transcription_down []
                            (Locals [] EmptyString)) = inl unavailable)
    by (vm_compute; reflexivity).
  destruct (proj2 (@failure_aborts_and_cleans_up unit "clip.mp4"
                     transcription_down [] tt) unavailable Hbody)
    as (Hres & Hshown & _).
  split; [exact Hbody|split; [exact Hres|split; [exact Hshown|]]].
  vm_compute. reflexivity.
Defined.

Lemma zero_duration_gives_empty_transcript_witness :
  let o := process_and_transcribe "talk.mp3" (audio_world (100 * MB)%N 0) [] tt in
  In 0%Q (pick measured_duration (events o)) /\
  pick transcription_request (events o) = [] /\
  result o = inr (Some EmptyString).
Proof.
  cbv zeta.
  assert (Hdur : In 0%Q
                   (pick measured_duration
                      (events (process_and_transcribe "talk.mp3"
                                 (audio_world (100 * MB)%N 0) [] tt))))
    by (vm_compute; left; reflexivity).
  destruct (@zero_duration_gives_empty_transcript unit "talk.mp3"
              (audio_world (100 * MB)%N 0) [] tt 0%Q Hdur (Qeq_refl 0))
    as (_ & Hreq & Hdone).
  split; [exact Hdur|split; [exact Hreq|]].
  apply Hdone. vm_compute. reflexivity.
Defined.

(** C7 fails as stated: a 0-byte file is transcribed, no error is raised
    or shown. *)
Lemma zero_size_raises_no_planning_error :
  let o := process_and_transcribe "empty.mp3" (audio_world 0 600) [] tt in
  pick sized_file (events o) = [("empty.mp3", 0%N)] /\
  result o = inr (Some "[empty.mp3]") /\
  pick error_shown (events o) = [].
Proof. cbv zeta. repeat apply conj; vm_compute; reflexivity. Qed.

Lemma zero_size_is_transcribed_directly_witness :
  let o := process_and_transcribe "empty.mp3" (audio_world 0 600) [] tt in
  In ("empty.mp3", 0%N) (pick sized_file (events o)) /\
  pick transcription_request (events o) = ["empty.mp3"] /\
  pick planning_request (events o) = [].
Proof.
  cbv zeta.
  assert (Hin : In ("empty.mp3", 0%N)
                  (pick sized_file
                     (events (process_and_transcribe "empty.mp3"
                                (audio_world 0 600) [] tt))))
    by (vm_compute; left; reflexivity).
  destruct (@zero_size_is_transcribed_directly unit "empty.mp3"
              (audio_world 0 600) [] tt "empty.mp3" Hin) as (Hreq & Hplan & _).
  auto.
Defined.

Lemma diarize_fails_open_witness :
  respond chat_down [] (chat_completions_create "hello there") = inl unavailable /\
  result (diarize_with_gpt4 (L:=unit) "hello there" chat_down [] tt) =
    inr "hello there".
Proof.
  assert (R : respond chat_down [] (chat_completions_create "hello there") =
              inl unavailable) by reflexivity.
  split; [exact R|].
  exact (proj1 (@diarize_fails_open unit chat_down [] tt "hello there"
                  unavailable R)).
Defined.

(** C9 at a run where every file is locked on the first removal and free
    on the second: the chunk files registered by [process_and_transcribe]
    are tried once and left behind, while the handler retries the uploaded
    file and removes it; no error is shown and the transcript is
    delivered. *)
Lemma registered_files_get_one_removal_attempt :
  let o := upload_run "talk.mp3" false locked_once [] tt in
  pick removal_result (events o) =
    [("talk.mp3_part_0.mp3", false); ("talk.mp3_part_1.mp3", false);
     ("talk.mp3", false); ("talk.mp3", true)] /\
  pick error_shown (events o) = [] /\
  result o = inr (Some "[talk.mp3_part_0.mp3] [talk.mp3_part_1.mp3] ").
Proof. cbv zeta. repeat apply conj; vm_compute; reflexivity. Qed.

Lemma empty_transcript_shown_as_failure_witness :
  let env := audio_world (100 * MB)%N 0 in
  let run := process_and_transcribe "talk.mp3" env [] tt in
  let o := upload_run "talk.mp3" true env [] tt in
  result run = inr (Some EmptyString) /\
  result o = inr None /\
  pick transcript_output (events o) = [].
Proof.
  cbv zeta.
  assert (Hrun : result (process_and_transcribe "talk.mp3"
                           (audio_world (100 * MB)%N 0) [] tt) =
                 inr (Some EmptyString)) by (vm_compute; reflexivity).
  split; [exact Hrun|].
  exact (proj2 (@empty_transcript_shown_as_failure "talk.mp3" true
                  (audio_world (100 * MB)%N 0) []) (or_intror Hrun)).
Defined.

(** A 77 MB audio of 77 seconds: the chunk duration computed is 19, not
    20, and five chunks are cut and transcribed. *)
Example five_chunks_at_77MB_77s :
  let o := process_and_transcribe "talk.mp3" (audio_world (77 * MB)%N 77) [] tt in
  pick subclip_request (events o) =
    [(0%Z, 19%Q); (19%Z, 38%Q); (38%Z, 57%Q); (57%Z, 76%Q); (76%Z, 77%Q)] /\
  List.length (pick transcription_request (events o)) = 5%nat /\
  pick progress_value (events o) =
    [0%Q; nearest_double (1 # 5); nearest_double (2 # 5); nearest_double (3 # 5);
     nearest_double (4 # 5); 1%Q].
Proof. cbv zeta. repeat apply conj; vm_compute; reflexivity. Qed.

Example outage_mid_run_removes_every_registered_file :
  let o := process_and_transcribe "clip.mp4" outage_after_first_chunk [] tt in
  result o = inr None /\
  pick error_shown (events o) = ["An error occurred: service unavailable"] /\
  pick removal_request (events o) =
    ["clip.mp4.mp3"; "clip.mp4.mp3_part_0.mp3"; "clip.mp4.mp3_part_1.mp3"].
Proof. cbv zeta. repeat apply conj; vm_compute; reflexivity. Qed.

Local Close Scope string_scope.

(** * More on the chunk arithmetic *)

Section PlanShape.

Local Open Scope Q_scope.

(** Rounding the size in MB does not move it across the limit. *)
Lemma size_test_in_bytes (size_bytes : N) :
  get_file_size_mb size_bytes <= OPENAI_LIMIT_MB <-> (size_bytes <= 26214400)%N.
Proof.
  unfold get_file_size_mb, OPENAI_LIMIT_MB.
  set (q := inject_Z (Z.of_N size_bytes) / inject_Z (1024 * 1024)).
  assert (Hq : inject_Z (Z.of_N size_bytes) == q * inject_Z (1024 * 1024))
    by (subst q; field; discriminate).
  assert (H25 : representable 25) by (apply (representable_Z 25); vm_compute; discriminate).
  assert (Hnext : representable (26214401 # 1048576)).
  { exists 26214401%Z, (-20)%Z. split; [reflexivity|]. split; [vm_compute; discriminate|lia]. }
  change (inject_Z (1024 * 1024)) with 1048576 in Hq.
  split.
  - intros Hle. destruct (N.le_gt_cases size_bytes 26214400) as [|Hgt]; [assumption|exfalso].
    assert (Hz : inject_Z 26214401 <= inject_Z (Z.of_N size_bytes))
      by (rewrite <- Zle_Qle; lia).
    change (inject_Z 26214401) with 26214401 in Hz.
    assert (Hr : (26214401 # 1048576) <= q).
    { setoid_replace (26214401 # 1048576) with (26214401 / 1048576) by reflexivity.
      apply Qle_shift_div_r; [reflexivity|]. lra. }
    pose proof (nearest_double_ge Hnext Hr) as Hge.
    assert ((25 : Q) < 26214401 # 1048576) by reflexivity. lra.
  - intros Hle. apply (nearest_double_le H25).
    assert (Hz : inject_Z (Z.of_N size_bytes) <= inject_Z 26214400)
      by (rewrite <- Zle_Qle; lia).
    change (inject_Z 26214400) with 26214400 in Hz. lra.
Qed.

(** The size test of line 155, in bytes. *)
Theorem small_file_threshold_in_bytes (size_bytes : N) :
  Qle_bool (get_file_size_mb size_bytes) OPENAI_LIMIT_MB = true <->
  (size_bytes <= 26214400)%N.
Proof. rewrite Qle_bool_iff. apply size_test_in_bytes. Qed.

(** On the chunking path, for a clip of up to [2^53] seconds, every chunk
    but the last lasts [chunk_duration] seconds; the last one lasts at most
    that. *)
Theorem chunks_have_the_chunk_duration (file_size_mb duration : Q) :
  25 < file_size_mb -> binary64 duration ->
  0 <= duration -> duration <= inject_Z (2 ^ 53) ->
  exists cd plan,
    chunk_duration file_size_mb duration = inr cd /\
    chunk_plan file_size_mb duration = inr plan /\
    forall i s e,
      nth_error plan i = Some (s, e) ->
      e - inject_Z s <= inject_Z cd /\
      ((S i < List.length plan)%nat -> e - inject_Z s == inject_Z cd).
Proof.
  intros Hsize Hd H0 Hhuge.
  destruct (chunk_duration_facts Hsize Hd H0) as (cd & Hcd & Hten & Hrep & Hsmall).
  pose proof (num_chunks_value Hten Hrep Hsmall Hd H0) as Hn.
  exists cd. eexists. split; [exact Hcd|].
  split; [unfold chunk_plan; rewrite Hcd, Hn; reflexivity|].
  intros i s e H. apply specs_nth in H as (Hi & -> & ->).
  unfold start_time, end_time.
  assert (Hstep : inject_Z ((Z.of_nat i + 1) * cd) - inject_Z (Z.of_nat i * cd)
                  == inject_Z cd).
  { rewrite !inject_Z_mult, inject_Z_plus. ring. }
  split.
  - destruct (py_min_cases (inject_Z ((Z.of_nat i + 1) * cd)) duration)
      as [[_ ->]|[Hlt ->]]; lra.
  - intros Hnext. unfold chunk_specs in Hnext. rewrite length_map, range_length in Hnext.
    assert (Hlo : inject_Z ((Z.of_nat i + 1) * cd) < duration)
      by (apply (@num_chunks_lower cd duration Hten Hd H0 Hhuge); lia).
    destruct (py_min_cases (inject_Z ((Z.of_nat i + 1) * cd)) duration)
      as [[_ ->]|[Hlt ->]]; lra.
Qed.

(** On the chunking path, whatever the clip's duration (a binary64
    number that is not negative), lines 164-167 raise nothing: no division
    by zero, no infinity or NaN to convert; and the loop of line 171 runs
    at most as many times as the clip has seconds. *)
Theorem chunking_arithmetic_raises_nothing (file_size_mb duration : Q) :
  25 < file_size_mb -> binary64 duration -> 0 <= duration ->
  exists cd n,
    chunk_duration file_size_mb duration = inr cd /\
    num_chunks duration cd = inr n /\
    (10 <= cd)%Z /\ (0 <= n)%Z /\ inject_Z n <= inject_Z (Qceiling duration).
Proof.
  intros Hsize Hd H0.
  destruct (chunk_duration_facts Hsize Hd H0) as (cd & Hcd & Hten & Hrep & Hsmall).
  pose proof (num_chunks_value Hten Hrep Hsmall Hd H0) as Hn.
  destruct (quotient_bounds Hten Hd H0) as (_ & Hlo & Hhi).
  exists cd. eexists. split; [exact Hcd|]. split; [exact Hn|].
  split; [exact Hten|]. split.
  - change 0%Z with (Qceiling 0). now apply Qceiling_resp_le.
  - rewrite <- Zle_Qle. now apply Qceiling_resp_le.
Qed.

End PlanShape.

(** * The [finally] block and the deletion loop *)

Lemma removal_attempts_requests files : forall evs,
  removal_attempts files evs ->
  pick existence_request evs = files /\
  incl (pick removal_request evs) files /\
  (List.length (pick removal_request evs) <= List.length files)%nat.
Proof.
  induction files as [|f files IH]; intros evs H; cbn [removal_attempts] in H.
  - subst evs. cbn. repeat split; auto using incl_nil_l.
  - destruct H as (r & tail & -> & H).
    destruct (exists_answer r).
    + destruct H as (r' & tail' & -> & H). destruct (IH _ H) as (He & Hi & Hl).
      rewrite !pick_cons. cbn [existence_request removal_request List.length].
      split; [now rewrite He|split; [|lia]].
      intros x [<-|Hx]; [now left|right; auto].
    + destruct (IH _ H) as (He & Hi & Hl).
      rewrite !pick_cons. cbn [existence_request removal_request List.length].
      split; [now rewrite He|split; [|lia]].
      intros x Hx. right. auto.
Qed.


(** The deletion loop of the handler never raises; every request is for
    the same file; it stops at the first success, so all requests but
    possibly the last failed; it makes at most [attempts] requests and
    pauses at most once per failed request. *)
Theorem deletion_loop_stops_at_first_success {L} attempts path :
  forall env h (l : L),
  let o := delete_with_retries attempts path env h l in
  result o = inr tt /\
  vars o = l /\
  exists failures,
    (failures <= attempts)%nat /\
    (pick removal_result (events o) = repeat (path, false) failures \/
     (failures < attempts)%nat /\
     pick removal_result (events o) =
       repeat (path, false) failures ++ [(path, true)]) /\
    (List.length (pick pause (events o)) <= failures)%nat /\
    Forall (fun s => s == 1)%Q (pick pause (events o)).
Proof.
  induction attempts as [|more IH]; intros env h l; cbn [delete_with_retries].
  - cbn. repeat split. exists 0%nat. cbn. repeat split; auto.
  - cbv zeta. destruct (try_except _ _ env h l) as [r l' evs] eqn:E. run E.
    + match goal with
      | H : delete_with_retries more path env ?h' ?l1 = _ |- _ =>
          pose proof (IH env h' l1) as IH'; cbv zeta in IH'; rewrite H in IH'
      end.
      cbn [result vars events] in *.
      destruct IH' as (-> & -> & k & Hk & Hshape & Hp & Hone).
      repeat split. exists (S k). rewrite !pick_cons.
      cbn [removal_result pause List.length repeat app].
      repeat split.
      * lia.
      * destruct Hshape as [->|[Hlt ->]]; [left; reflexivity|right].
        split; [lia|reflexivity].
      * lia.
      * constructor; [reflexivity|assumption].
    + cbn [result vars events]. repeat split. exists 1%nat.
      rewrite !pick_cons, pick_nil. cbn [removal_result pause List.length repeat app].
      repeat split; auto. lia.
    + cbn [result vars events].
      split; [match goal with |- inr ?x = _ => now destruct x end|].
      split; [reflexivity|]. exists 0%nat.
      rewrite !pick_cons, pick_nil. cbn [removal_result pause List.length repeat app].
      repeat split; auto; try lia. right. split; [lia|reflexivity].
Qed.

(** * The results block *)





(** * Audio extraction *)

(** At most one write passes [logger=None] and at most one, after it, uses
    the default logger; that one is asked only after an [AttributeError] and
    an existence test of the audio file.  When extraction returns, at most
    one call has raised and it raised an [AttributeError]; when it raises,
    it raises what the last failed call raised. *)
Theorem extraction_falls_back_once input_path audio_path env h l :
  let o := extract_audio input_path audio_path env h l in
  vars o = l /\
  (exists quiet noisy,
     pick audio_write_request (events o) =
       repeat (audio_path, true) quiet ++ repeat (audio_path, false) noisy /\
     (quiet <= 1)%nat /\ (noisy <= 1)%nat) /\
  (In (audio_path, false) (pick audio_write_request (events o)) ->
   pick existence_request (events o) = [audio_path]) /\
  (result o = inr tt ->
   pick video_failure (events o) = [] \/
   exists e, pick video_failure (events o) = [e] /\ is_AttributeError e = true) /\
  (forall e, result o = inl e ->
   exists earlier,
     pick video_failure (events o) = earlier ++ [e] /\
     (List.length earlier <= 1)%nat /\
     Forall (fun e' => is_AttributeError e' = true) earlier).
Proof.
  cbv zeta. destruct (extract_audio input_path audio_path env h l) as [r l' evs] eqn:E.
  unfold extract_audio in E. run E; cbn [result vars events];
    repeat first [rewrite pick_app | rewrite pick_cons | rewrite pick_nil];
    cbn [audio_write_request existence_request video_failure app].
  all: split; [reflexivity|].
  all: split;
    [first [ exists 0%nat, 0%nat; split; [reflexivity|lia]
           | exists 1%nat, 0%nat; split; [reflexivity|lia]
           | exists 0%nat, 1%nat; split; [reflexivity|lia]
           | exists 1%nat, 1%nat; split; [reflexivity|lia] ]|].
  all: split;
    [intros Hin; first [reflexivity | cbn in Hin; intuition discriminate]|].
  all: split;
    [intros Hr;
     first [ discriminate Hr | left; reflexivity
           | right; eexists; split; [reflexivity|assumption] ]|].
  all: intros e He; first [discriminate He|inversion He; subst].
  all: first [ exists []; split; [reflexivity|]; split; [cbn; lia|constructor]
             | eexists [_]; split; [reflexivity|]; split; [cbn; lia|];
               constructor; [assumption|constructor] ].
Qed.

Lemma extract_audio_keeps_vars input_path audio_path :
  keeps (fun l : locals => l) (extract_audio input_path audio_path).
Proof. unfold extract_audio. keeps_tac. Qed.

(** What the extraction stage answers and registers. *)
Lemma working_audio_outcome input_path env h l :
  let o := working_audio input_path env h l in
  let is_video := str_in (splitext_lower env input_path) VIDEO_EXTENSIONS in
  match result o with
  | inr audio_path =>
      if is_video
      then audio_path = (input_path ++ ".mp3")%string /\
           temp_files_to_cleanup (vars o) =
             temp_files_to_cleanup l ++ [audio_path]
      else audio_path = input_path /\ vars o = l /\ events o = []
  | inl _ => is_video = true /\ vars o = l
  end.
Proof.
  cbv zeta. destruct (working_audio input_path env h l) as [r l' evs] eqn:E.
  unfold working_audio, register in E. run E; cbn [result vars events].
  - match goal with
    | H : extract_audio ?i ?a ?env ?h ?l = _ |- _ =>
        pose proof (extract_audio_keeps_vars i a env h l) as K; rewrite H in K
    end.
    cbn [vars] in K. subst. auto.
  - match goal with
    | H : extract_audio ?i ?a ?env ?h ?l = _ |- _ =>
        pose proof (extract_audio_keeps_vars i a env h l) as K; rewrite H in K
    end.
    cbn [vars] in K. subst. auto.
  - auto.
Qed.

(** When the audio of a video cannot be extracted, nothing has been
    registered: the run answers [None], shows the error, and the [finally]
    block tests and removes no file, so what the failed write left of
    [input_path.mp3] stays. *)
Theorem extraction_failure_removes_nothing {L} input_path env h (l : L) e :
  let extraction := working_audio input_path env h (Locals [] EmptyString) in
  let o := process_and_transcribe input_path env h l in
  result extraction = inl e ->
  result o = inr None /\
  events o =
    events extraction ++ [Out (st_error ("An error occurred: " ++ message e))] /\
  pick existence_request (events o) = pick existence_request (events extraction) /\
  pick removal_request (events o) = [].
Proof.
  cbv zeta. intros He.
  pose proof (working_audio_outcome input_path env h (Locals [] EmptyString)) as Hw.
  cbv zeta in Hw. rewrite He in Hw. destruct Hw as [_ Hv].
  pose proof (working_audio_only input_path env h (Locals [] EmptyString)) as Ho.
  unfold process_and_transcribe, try_body. cbv zeta.
  destruct (working_audio input_path env h (Locals [] EmptyString))
    as [r l1 evs1] eqn:E.
  cbn [result vars events] in *. subst r l1.
  rewrite (bind_raise _ E). cbn [result vars events].
  rewrite bind_emit. unfold after, cleanup. rewrite bind_get_vars.
  cbn [temp_files_to_cleanup for_each ret result vars events app].
  split; [reflexivity|]. split; [reflexivity|].
  rewrite !pick_app, !pick_cons, !pick_nil.
  cbn [existence_request removal_request].
  rewrite (@only_no_pick extraction_event _ removal_request _ ltac:(event_cases) Ho).
  now rewrite app_nil_r.
Qed.

(** The file that is measured and, on the chunking path, opened is the
    input itself unless its extension is one of the four video extensions;
    then it is [input_path.mp3].  A non-video input makes no call to a
    video clip. *)
Theorem working_file_follows_the_extension {L} input_path env h (l : L) :
  let o := process_and_transcribe input_path env h l in
  let is_video := str_in (splitext_lower env input_path) VIDEO_EXTENSIONS in
  (forall f, In f (pick probed_file (events o)) ->
     f = if is_video then (input_path ++ ".mp3")%string else input_path) /\
  (is_video = false ->
   pick video_request (events o) = [] /\
   pick audio_write_request (events o) = []).
Proof.
  cbv zeta. open_run input_path env h; cbn [probed_file video_request audio_write_request].
  all: match goal with
       | H : working_audio ?i ?env ?h ?l = _ |- _ =>
           pose proof (working_audio_outcome i env h l) as Hw; cbv zeta in Hw;
           rewrite H in Hw; cbn [result vars events] in Hw
       end.
  all: destruct (str_in (splitext_lower env input_path) VIDEO_EXTENSIONS).
  all: split;
    [intros f Hf; cbn [In app] in Hf; rewrite ?app_nil_r in Hf;
     try contradiction; try (destruct Hw as [-> _])|].
  all: try (intros Hv; discriminate Hv).
  all: try (destruct Hw as (_ & _ & ->); intros _; split; reflexivity).
  all: try (destruct Hw as [Hv _]; discriminate Hv).
  all: try (repeat (destruct Hf as [Hf|Hf]; [now subst|]); try contradiction).
Qed.

(** * What is registered, written and removed *)

Section PreservesRules.

Context {L : Type} (P : L -> Prop).

Lemma preserves_ret {A} (a : A) : preserves P (ret a).
Proof. intros env h l H. exact H. Qed.

Lemma preserves_raise {A} (e : exn) : preserves (A:=A) P (raise e).
Proof. intros env h l H. exact H. Qed.

Lemma preserves_lift {A} (r : exn + A) : preserves P (lift r).
Proof. intros env h l H. exact H. Qed.

Lemma preserves_emit (o : output) : preserves P (emit o).
Proof. intros env h l H. exact H. Qed.

Lemma preserves_perform {R} (c : call R) : preserves P (perform c).
Proof. intros env h l H. exact H. Qed.

Lemma preserves_get_vars : preserves P get_vars.
Proof. intros env h l H. exact H. Qed.

Lemma preserves_bind {A B} (m : M L A) (k : A -> M L B) :
  preserves P m -> (forall a, preserves P (k a)) -> preserves P (bind m k).
Proof.
  intros Hm Hk env h l H. unfold bind. specialize (Hm env h l H).
  destruct (m env h l) as [[e|a] l1 ev1]; cbn in *; [assumption|].
  now apply Hk.
Qed.

Lemma preserves_for_each {X} (xs : list X) (body : X -> M L unit) :
  (forall x, preserves P (body x)) -> preserves P (for_each xs body).
Proof.
  intros Hb. induction xs as [|x xs IH]; cbn [for_each].
  - apply preserves_ret.
  - apply preserves_bind; [apply Hb|intros _; exact IH].
Qed.

End PreservesRules.

Lemma length_append (a b : string) :
  String.length (a ++ b) = (String.length a + String.length b)%nat.
Proof. induction a; cbn; congruence. Qed.

Lemma register_beyond input_path file :
  (String.length input_path < String.length file)%nat ->
  preserves (registers_beyond input_path) (register file).
Proof.
  intros Hlen env h l H. unfold registers_beyond in *. cbn.
  apply Forall_app. split; [exact H|]. constructor; [exact Hlen|constructor].
Qed.

Lemma assign_beyond input_path text :
  preserves (registers_beyond input_path) (assign_full_transcript text).
Proof. intros env h l H. exact H. Qed.

Lemma chunk_filename_longer audio_path i :
  (String.length audio_path < String.length (chunk_filename audio_path i))%nat.
Proof. unfold chunk_filename. rewrite length_append. cbn. lia. Qed.

Ltac preserves_tac :=
  repeat first
    [ apply assign_beyond
    | apply register_beyond
    | apply preserves_bind; [|intros ?]
    | apply preserves_for_each; intros ?
    | apply preserves_ret | apply preserves_raise | apply preserves_lift
    | apply preserves_emit
    | apply preserves_perform | apply preserves_get_vars
    | match goal with |- preserves _ (if ?b then _ else _) => destruct b end
    | progress cbv beta zeta ].

Lemma size_and_transcribe_beyond input_path audio_path :
  (String.length input_path <= String.length audio_path)%nat ->
  preserves (registers_beyond input_path) (size_and_transcribe audio_path).
Proof.
  intros Hlen.
  unfold size_and_transcribe, transcribe_in_chunks, chunk_step, transcribe_chunk.
  preserves_tac.
  pose proof (chunk_filename_longer audio_path x). lia.
Qed.

(** Every file the [try] body registers has a name longer than the input's. *)
Lemma try_body_beyond input_path env h :
  registers_beyond input_path
    (vars (try_body input_path env h (Locals [] EmptyString))).
Proof.
  pose proof (working_audio_outcome input_path env h (Locals [] EmptyString)) as Hw.
  cbv zeta in Hw. unfold try_body, bind.
  destruct (working_audio input_path env h (Locals [] EmptyString))
    as [[e|audio_path] l1 evs1]; cbn [result vars events] in *.
  - destruct Hw as [_ ->]. constructor.
  - unfold after. cbn [vars].
    destruct (str_in (splitext_lower env input_path) VIDEO_EXTENSIONS).
    + destruct Hw as [-> Hreg]. apply size_and_transcribe_beyond.
      * rewrite length_append. lia.
      * unfold registers_beyond. rewrite Hreg. cbn.
        constructor; [rewrite length_append; cbn; lia|constructor].
    + destruct Hw as (-> & -> & _). apply size_and_transcribe_beyond; [lia|].
      constructor.
Qed.

(** [process_and_transcribe] never asks to remove its input: the files it
    asks to remove are registered ones, and their names are longer. *)
Theorem input_file_is_never_removed {L} input_path env h (l : L) f :
  In f (pick removal_request
          (events (process_and_transcribe input_path env h l))) ->
  f <> input_path /\
  (String.length input_path < String.length f)%nat.
Proof.
  pose proof (try_body_beyond input_path env h) as Hreg.
  pose proof (try_body_only input_path env h (Locals [] EmptyString)) as Hb.
  unfold process_and_transcribe. cbv zeta.
  destruct (try_body input_path env h (Locals [] EmptyString)) as [r l1 evs1].
  cbn [result vars events] in *.
  assert (Hfin : forall h', In f (pick removal_request (events (cleanup env h' l1))) ->
                 (String.length input_path < String.length f)%nat).
  { intros h' Hin.
    pose proof (cleanup_loop (temp_files_to_cleanup l1) env h' l1) as Hc.
    cbv zeta in Hc. destruct Hc as (_ & _ & Ha).
    apply removal_attempts_requests in Ha as (_ & Hincl & _).
    unfold cleanup in Hin. rewrite bind_get_vars in Hin.
    apply Hincl in Hin. unfold registers_beyond in Hreg.
    rewrite Forall_forall in Hreg. exact (Hreg _ Hin). }
  assert (Hlen : forall h', In f (pick removal_request (events (cleanup env h' l1))) ->
                 f <> input_path /\
                 (String.length input_path < String.length f)%nat).
  { intros h' Hin. specialize (Hfin h' Hin). split; [|exact Hfin].
    intros ->. lia. }
  destruct r as [e|[]]; cbn [events]; rewrite ?bind_emit; unfold after;
    cbn [events]; rewrite !pick_app, ?pick_cons;
    cbn [removal_request app];
    rewrite (@only_no_pick body_event _ removal_request _ ltac:(event_cases) Hb);
    apply Hlen.
Qed.

(** A chunk file is registered before it is written: whatever the outcome
    of the loop, the files it asked to write are registered, and so is
    everything that was registered before. *)
Lemma chunk_loop_registers_writes audio_path cd duration n xs :
  forall env h l o,
  for_each xs (chunk_step audio_path cd duration n) env h l = o ->
  incl (temp_files_to_cleanup l) (temp_files_to_cleanup (vars o)) /\
  incl (pick chunk_write_request (events o)) (temp_files_to_cleanup (vars o)).
Proof.
  induction xs as [|i xs IH]; intros env h l [r l' evs] E; cbn [for_each] in E.
  - run E. cbn. split; [apply incl_refl|apply incl_nil_l].
  - unfold chunk_step at 1, transcribe_chunk, register, assign_full_transcript in E.
    run E; cbn [vars events temp_files_to_cleanup full_transcript];
      repeat first [rewrite pick_app | rewrite pick_cons | rewrite pick_nil];
      cbn [chunk_write_request app].
    all: try (split; [apply incl_appl, incl_refl|]).
    all: try apply incl_nil_l.
    all: try (intros x [<-|[]]; apply in_or_app; right; now left).
    match goal with
    | H : for_each xs _ _ _ _ = _ |- _ =>
        destruct (IH _ _ _ _ H) as (Hold & Hnew)
    end.
    cbn [vars events temp_files_to_cleanup] in *. split.
    + intros x Hx. apply Hold. apply in_or_app. now left.
    + intros x [<-|Hx]; [|now apply Hnew].
      apply Hold. apply in_or_app. right. now left.
Qed.

(** Every chunk file [process_and_transcribe] asked to write is tested for
    existence by the [finally] block, whether the run succeeded or failed
    half-way through that chunk. *)
Theorem written_chunks_are_cleaned_up {L} input_path env h (l : L) f :
  let o := process_and_transcribe input_path env h l in
  In f (pick chunk_write_request (events o)) ->
  In f (pick existence_request (events o)).
Proof.
  cbv zeta.
  assert (Hbody : incl (pick chunk_write_request
                          (events (try_body input_path env h (Locals [] EmptyString))))
                       (temp_files_to_cleanup
                          (vars (try_body input_path env h (Locals [] EmptyString))))).
  { destruct (try_body input_path env h (Locals [] EmptyString)) as [rb lb evb] eqn:E.
    pipeline_cases E; cbn [vars events temp_files_to_cleanup];
      repeat first [rewrite pick_app | rewrite pick_cons | rewrite pick_nil];
      repeat match goal with
        | H : forallb extraction_event _ = true |- _ => progress drop_silent H
        end;
      cbn [chunk_write_request app]; rewrite ?app_nil_r.
    all: try apply incl_nil_l.
    all: match goal with
         | H : for_each _ _ _ _ _ = _ |- _ =>
             destruct (chunk_loop_registers_writes _ _ _ _ _ _ _ _ H) as (_ & Hw);
             cbn [vars events] in Hw
         end.
    all: try exact Hw.
    all: intros x Hx; apply in_app_or in Hx as [Hx|Hx]; [now apply Hw|].
    all: rewrite ?pick_cons, ?pick_nil in Hx; cbn [chunk_write_request] in Hx;
         contradiction. }
  unfold process_and_transcribe. cbv zeta.
  destruct (try_body input_path env h (Locals [] EmptyString)) as [r l1 evs1].
  cbn [result vars events] in *. intros Hin.
  assert (Hfin : forall h', pick chunk_write_request (events (cleanup env h' l1)) = []).
  { intros h'. pose proof (cleanup_only env h' l1) as Hc.
    now rewrite (@only_no_pick cleanup_event _ chunk_write_request _
                   ltac:(event_cases) Hc). }
  assert (Hex : forall h', pick existence_request (events (cleanup env h' l1))
                           = temp_files_to_cleanup l1).
  { intros h'. pose proof (cleanup_loop (temp_files_to_cleanup l1) env h' l1) as Hc.
    cbv zeta in Hc. destruct Hc as (_ & _ & Ha).
    apply removal_attempts_requests in Ha as (He & _).
    unfold cleanup. now rewrite bind_get_vars. }
  destruct r as [e|[]]; cbn [events] in Hin |- *;
    rewrite ?bind_emit in Hin |- *; unfold after in Hin |- *;
    cbn [events] in Hin |- *;
    rewrite ?pick_app, ?pick_cons in Hin; rewrite ?pick_app, ?pick_cons;
    cbn [chunk_write_request existence_request app] in Hin |- *;
    rewrite Hfin, app_nil_r in Hin; rewrite Hex;
    apply in_or_app; right; now apply Hbody.
Qed.

(** * Progress and the small-file path *)

Lemma progress_fraction_bounds (i n : Z) :
  (0 <= i < n)%Z ->
  (0 <= Plan.progress_fraction i n /\ Plan.progress_fraction i n <= 1)%Q.
Proof.
  intros Hi. unfold Plan.progress_fraction.
  assert (Hn : (0 < inject_Z n)%Q)
    by (change 0%Q with (inject_Z 0); rewrite <- Zlt_Qlt; lia).
  split.
  - apply (nearest_double_ge representable_0).
    apply Qle_shift_div_l; [exact Hn|]. rewrite Qmult_0_l.
    change 0%Q with (inject_Z 0). rewrite <- Zle_Qle. lia.
  - apply (nearest_double_le representable_1).
    apply Qle_shift_div_r; [exact Hn|]. rewrite Qmult_1_l.
    rewrite <- Zle_Qle. lia.
Qed.

Lemma chunk_loop_progress audio_path cd duration n xs :
  Forall (fun i => 0 <= i < n)%Z xs ->
  forall env h l o q,
  for_each xs (chunk_step audio_path cd duration n) env h l = o ->
  In q (pick progress_value (events o)) -> (0 <= q /\ q <= 1)%Q.
Proof.
  induction xs as [|i xs IH]; intros Hxs env h l [r l' evs] q E; cbn [for_each] in E.
  - run E. intros [].
  - inversion Hxs as [|? ? Hi Hrest]; subst.
    unfold chunk_step at 1, transcribe_chunk, register, assign_full_transcript in E.
    run E; cbn [events];
      repeat first [rewrite pick_app | rewrite pick_cons | rewrite pick_nil];
      cbn [progress_value app In].
    all: try (intros []; fail).
    intros [<-|Hin].
    + now apply progress_fraction_bounds.
    + match goal with
      | H : for_each xs _ _ _ _ = _ |- _ => exact (IH Hrest _ _ _ _ _ H Hin)
      end.
Qed.

(** Every value handed to the progress bar lies between 0 and 1. *)
Theorem progress_stays_within_bounds {L} input_path env h (l : L) q :
  let o := process_and_transcribe input_path env h l in
  In q (pick progress_value (events o)) -> (0 <= q /\ q <= 1)%Q.
Proof.
  cbv zeta. open_run input_path env h; cbn [progress_value app In];
    rewrite ?app_nil_r.
  all: try (intros []; fail).
  all: intros [<-|Hin]; [split; discriminate|].
  all: try (apply in_app_or in Hin as [Hin|Hin];
            [|rewrite ?pick_cons, ?pick_nil in Hin; cbn [progress_value In] in Hin;
              try contradiction]).
  all: match goal with
       | H : for_each _ _ _ _ _ = _ |- _ =>
           destruct (@chunk_loop_progress _ _ _ _ _
                       (proj2 (Forall_forall _ _)
                              (fun i Hi => proj1 (range_In _ i) Hi))
                       _ _ _ _ _ H Hin) as [Hlo Hhi]
       end.
  all: split; assumption.
Qed.

(** On the small-file path the transcript is the service's answer as it
    is, with nothing appended. *)
Theorem small_file_transcript_is_the_answer
    {L} input_path env h (l : L) path size_bytes text :
  let o := process_and_transcribe input_path env h l in
  In (path, size_bytes) (pick sized_file (events o)) ->
  (size_bytes <= 26214400)%N ->
  In text (pick transcription_text (events o)) ->
  result o = inr (Some text) /\
  pick transcription_text (events o) = [text] /\
  pick error_shown (events o) = [].
Proof.
  cbv zeta. open_run input_path env h; intros Hin Hsmall Htext.
  all: try contradiction.
  all: destruct Hin as [Hin|[]]; inversion Hin; subst.
  all: try (exfalso; eapply small_means_not_large; [|eassumption];
            now apply size_test_in_bytes).
  all: cbn [In] in Htext; try contradiction.
  all: destruct Htext as [<-|[]]; repeat split.
Qed.

(** * The upload handler *)

Lemma deletion_loop_requests {L} attempts path : forall env h (l : L),
  let o := delete_with_retries attempts path env h l in
  exists k,
    (k <= attempts)%nat /\ (attempts <> 0%nat -> 1 <= k)%nat /\
    pick removal_request (events o) = repeat path k.
Proof.
  induction attempts as [|more IH]; intros env h l; cbn [delete_with_retries].
  - exists 0%nat. cbn. repeat split; auto. intros H. now elim H.
  - cbv zeta. destruct (try_except _ _ env h l) as [r l' evs] eqn:E. run E;
      cbn [events]; rewrite ?pick_cons, ?pick_nil; cbn [removal_request].
    + match goal with
      | H : delete_with_retries more path env ?h' ?l1 = _ |- _ =>
          pose proof (IH env h' l1) as IH'; cbv zeta in IH'; rewrite H in IH'
      end.
      cbn [events] in IH'. destruct IH' as (k & Hk & _ & ->).
      exists (S k). repeat split; [lia|lia].
    + exists 1%nat. repeat split; lia.
    + exists 1%nat. repeat split; lia.
Qed.

(** Whether the pipeline failed or not, the handler next tests the uploaded
    file for existence and, when it is there, asks to remove it at least
    once and at most three times; it asks for no other removal, and it
    never raises. *)
Theorem handler_removes_the_upload tmp_file_path enable_diarization env h :
  let run := process_and_transcribe tmp_file_path env h tt in
  let o := upload_handler tmp_file_path enable_diarization env h tt in
  exists r rest,
    events o = events run ++ Called (os_path_exists tmp_file_path) r :: rest /\
    (exists v, result o = inr v) /\
    exists k,
      pick removal_request rest = repeat tmp_file_path k /\
      if exists_answer r then (1 <= k <= 3)%nat else k = 0%nat.
Proof.
  cbv zeta.
  destruct (upload_handler tmp_file_path enable_diarization env h tt)
    as [r l' evs] eqn:E.
  unfold upload_handler in E. run E.
  all: try match goal with
       | H : process_and_transcribe ?p ?env ?h ?l = Outcome (inl _) _ _ |- _ =>
           pose proof (process_and_transcribe_never_raises p env h l) as [v Hv];
           rewrite H in Hv; discriminate
       end.
  all: try match goal with
       | H : delete_with_retries ?n ?p ?env ?h ?l = Outcome (inl _) _ _ |- _ =>
           pose proof (delete_with_retries_never_raises n p env h l) as Hd;
           rewrite H in Hd; discriminate
       end.
  all: try match goal with
       | H : delete_with_retries ?n ?p ?env ?h ?l = Outcome _ _ ?ev |- _ =>
           pose proof (deletion_loop_requests n p env h l) as (k & Hk & Hk1 & Hreq);
           rewrite H in Hreq; cbn [events] in Hreq
       end.
  all: match goal with
       | H : (match ?a with Some _ => _ | None => _ end) _ _ _ = _ |- _ =>
           destruct a as [text|]; cbn [truthy] in H;
           [destruct (negb (text =? EmptyString)%string);
            [destruct enable_diarization|]|];
           cbv beta iota in H; unfold diarize_with_gpt4 in H; run H
       end.
  all: cbn [result events]; eexists _, _; (split; [reflexivity|]);
       (split; [eexists; reflexivity|]).
  all: rewrite ?pick_app, ?pick_cons, ?pick_nil; cbn [removal_request app];
       rewrite ?app_nil_r.
  all: first [ exists k; split; [exact Hreq|]; rewrite B;
               unfold max_retries in *; split; [apply Hk1; discriminate|exact Hk]
             | exists 0%nat; split; [reflexivity|]; rewrite B; reflexivity ].
Qed.

(** With a non-empty transcript from the pipeline and no answer from the
    labeler (labeling off, or its request failed), the handler delivers the
    pipeline's transcript as it is: it is the result, "Done!" is shown once
    and the download button carries exactly that text.  When the labeler
    answers, its answer is the result instead, and it is offered for
    download unless it is empty. *)
Theorem handler_delivers_the_transcript
    tmp_file_path enable_diarization env h text :
  let run := process_and_transcribe tmp_file_path env h tt in
  let o := upload_run tmp_file_path enable_diarization env h tt in
  result run = inr (Some text) -> text <> EmptyString ->
  pick done_shown (events o) = [tt] /\
  (enable_diarization = false -> pick chat_answer (events o) = []) /\
  (pick chat_answer (events o) = [] ->
   result o = inr (Some text) /\ pick download_data (events o) = [text]) /\
  (forall labelled, pick chat_answer (events o) = [labelled] ->
   result o = inr (Some labelled) /\
   pick download_data (events o) =
     if (labelled =? EmptyString)%string then [] else [labelled]).
Proof.
  cbv zeta. intros Hrun Htext.
  assert (Htruthy : negb (text =? EmptyString)%string = true).
  { destruct text; [now elim Htext|reflexivity]. }
  destruct (upload_run tmp_file_path enable_diarization env h tt)
    as [r l' evs] eqn:E.
  unfold upload_run, upload_handler in E. run E.
  all: cbn [result] in Hrun; try discriminate Hrun.
  all: try match goal with
       | H : delete_with_retries ?n ?p ?env ?h ?l = Outcome (inl _) _ _ |- _ =>
           pose proof (delete_with_retries_never_raises n p env h l) as Hd;
           rewrite H in Hd; discriminate
       end.
  all: inversion Hrun; subst.
  all: match goal with
       | H : process_and_transcribe _ _ _ _ = _ |- _ =>
           pose proof (process_and_transcribe_only tmp_file_path env h tt) as Hp;
           rewrite H in Hp; cbn [events] in Hp
       end.
  all: try match goal with
       | H : delete_with_retries ?n ?p ?env ?h ?l = Outcome _ _ ?ev |- _ =>
           pose proof (delete_with_retries_only n p env h l) as Hd;
           rewrite H in Hd; cbn [events] in Hd
       end.
  all: cbn [truthy] in *; rewrite Htruthy in *; cbv beta iota in *.
  all: destruct enable_diarization; unfold diarize_with_gpt4 in *.
  all: repeat match goal with
       | H : bind _ _ _ _ _ = _ |- _ => run H
       | H : ret _ _ _ _ = _ |- _ => run H
       end.
  all: repeat match goal with
       | H : display_results (Some ?t) _ _ _ = _ |- _ =>
           destruct t; cbn [display_results truthy String.eqb negb] in H;
           cbv beta iota in H; run H
       end.
  all: try (now elim Htext).
  all: cbn [result events];
       repeat first [rewrite pick_app | rewrite pick_cons | rewrite pick_nil];
       cbn [done_shown chat_answer download_data app].
  all: repeat match goal with
       | H : forallb pipeline_event _ = true |- _ => progress drop_silent H
       | H : forallb deletion_event _ = true |- _ => progress drop_silent H
       end.
  all: cbn [app].
  all: split; [reflexivity|].
  all: split; [intros Hoff; first [reflexivity|discriminate Hoff]|].
  all: split; [intros Hnone; first [discriminate Hnone|split; reflexivity]|].
  all: intros labelled Hl; first [discriminate Hl|inversion Hl; subst; split; reflexivity].
Qed.

(** A key typed in the sidebar is the one used; the environment's is used
    only when the field is empty.  When neither gives a non-empty key, the
    sidebar warns, and pressing "Transcribe File" makes no call at all: it
    shows the request for a key and no transcript. *)
Theorem no_key_no_call typed environ tmp_file_path enable_diarization env h :
  let key := fst (sidebar_key typed environ) in
  let o := press_transcribe key tmp_file_path enable_diarization env h tt in
  (typed <> EmptyString ->
   key = Some typed /\ snd (sidebar_key typed environ) = None) /\
  (typed = EmptyString -> key = environ) /\
  (truthy key = false <-> typed = EmptyString /\ truthy environ = false) /\
  (truthy key = false ->
   snd (sidebar_key typed environ) = Some key_missing /\
   result o = inr None /\
   events o = [Out (st_error "Please provide an API Key in the sidebar.")]).
Proof.
  cbv zeta. unfold sidebar_key, press_transcribe.
  destruct typed as [|c rest]; cbn [truthy String.eqb negb fst snd].
  - destruct (truthy environ) eqn:Henv; cbn [fst snd]; rewrite ?Henv;
      cbn [negb]; cbv beta iota.
    + intuition (try discriminate; try congruence).
    + intuition (try discriminate; try congruence).
  - intuition (try discriminate; try congruence).
Qed.

(** * The further properties on concrete runs *)

Local Open Scope string_scope.

Lemma chunks_have_the_chunk_duration_witness :
  (25 < 30)%Q /\ binary64 25 /\ (0 <= 25)%Q /\ (25 <= inject_Z (2 ^ 53))%Q /\
  exists cd plan,
    chunk_duration 30 25 = inr cd /\ chunk_plan 30 25 = inr plan /\
    forall i s e,
      nth_error plan i = Some (s, e) ->
      (e - inject_Z s <= inject_Z cd)%Q /\
      ((S i < List.length plan)%nat -> (e - inject_Z s == inject_Z cd)%Q).
Proof.
  assert (Hs : (25 < 30)%Q) by reflexivity.
  assert (Hb : binary64 25) by (apply (binary64_Z 25); vm_compute; discriminate).
  assert (H0 : (0 <= 25)%Q) by (vm_compute; discriminate).
  assert (Hh : (25 <= inject_Z (2 ^ 53))%Q) by (vm_compute; discriminate).
  split; [exact Hs|split; [exact Hb|split; [exact H0|split; [exact Hh|]]]].
  exact (@chunks_have_the_chunk_duration 30 25 Hs Hb H0 Hh).
Defined.

Lemma chunking_arithmetic_raises_nothing_witness :
  (25 < 77)%Q /\ binary64 77 /\ (0 <= 77)%Q /\
  exists cd n, chunk_duration 77 77 = inr cd /\ num_chunks 77 cd = inr n.
Proof.
  assert (Hs : (25 < 77)%Q) by reflexivity.
  assert (Hb : binary64 77) by (apply (binary64_Z 77); vm_compute; discriminate).
  assert (H0 : (0 <= 77)%Q) by (vm_compute; discriminate).
  split; [exact Hs|split; [exact Hb|split; [exact H0|]]].
  destruct (@chunking_arithmetic_raises_nothing 77 77 Hs Hb H0)
    as (cd & n & Hcd & Hn & _).
  exists cd, n. auto.
Defined.

Lemma extraction_failure_removes_nothing_witness :
  let o := process_and_transcribe "clip.mp4" failing_write [] tt in
  result (working_audio "clip.mp4" failing_write [] (Locals [] EmptyString)) =
    inl unavailable /\
  result o = inr None /\
  pick removal_request (events o) = [].
Proof.
  cbv zeta.
  assert (He : result (working_audio "clip.mp4" failing_write []
                         (Locals [] EmptyString)) = inl unavailable)
    by (vm_compute; reflexivity).
  destruct (@extraction_failure_removes_nothing unit "clip.mp4" failing_write
              [] tt unavailable He) as (Hres & _ & _ & Hrem).
  split; [exact He|split; [exact Hres|exact Hrem]].
Defined.

Lemma input_file_is_never_removed_witness :
  let o := process_and_transcribe "clip.mp4" (video_world (10 * MB)%N 600) [] tt in
  In "clip.mp4.mp3" (pick removal_request (events o)) /\
  "clip.mp4.mp3" <> "clip.mp4".
Proof.
  cbv zeta.
  assert (Hin : In "clip.mp4.mp3"
                  (pick removal_request
                     (events (process_and_transcribe "clip.mp4"
                                (video_world (10 * MB)%N 600) [] tt))))
    by (vm_compute; left; reflexivity).
  split; [exact Hin|].
  exact (proj1 (@input_file_is_never_removed unit "clip.mp4"
                  (video_world (10 * MB)%N 600) [] tt "clip.mp4.mp3" Hin)).
Defined.

Lemma written_chunks_are_cleaned_up_witness :
  let o := process_and_transcribe "talk.mp3" (audio_world (30 * MB)%N 25) [] tt in
  In "talk.mp3_part_0.mp3" (pick chunk_write_request (events o)) /\
  In "talk.mp3_part_0.mp3" (pick existence_request (events o)).
Proof.
  cbv zeta.
  assert (Hin : In "talk.mp3_part_0.mp3"
                  (pick chunk_write_request
                     (events (process_and_transcribe "talk.mp3"
                                (audio_world (30 * MB)%N 25) [] tt))))
    by (vm_compute; left; reflexivity).
  split; [exact Hin|].
  exact (@written_chunks_are_cleaned_up unit "talk.mp3"
           (audio_world (30 * MB)%N 25) [] tt "talk.mp3_part_0.mp3" Hin).
Defined.

Lemma progress_stays_within_bounds_witness :
  let o := process_and_transcribe "talk.mp3" (audio_world (30 * MB)%N 25) [] tt in
  In (1 # 2)%Q (pick progress_value (events o)) /\
  (0 <= 1 # 2 /\ 1 # 2 <= 1)%Q.
Proof.
  cbv zeta.
  assert (Hin : In (1 # 2)%Q
                  (pick progress_value
                     (events (process_and_transcribe "talk.mp3"
                                (audio_world (30 * MB)%N 25) [] tt))))
    by (vm_compute; right; left; reflexivity).
  split; [exact Hin|].
  exact (@progress_stays_within_bounds unit "talk.mp3"
           (audio_world (30 * MB)%N 25) [] tt (1 # 2)%Q Hin).
Defined.

Lemma small_file_transcript_is_the_answer_witness :
  let o := process_and_transcribe "talk.mp3" (audio_world (10 * MB)%N 600) [] tt in
  In ("talk.mp3", (10 * MB)%N) (pick sized_file (events o)) /\
  (10 * MB <= 26214400)%N /\
  In "[talk.mp3]" (pick transcription_text (events o)) /\
  result o = inr (Some "[talk.mp3]").
Proof.
  cbv zeta.
  assert (Hin : In ("talk.mp3", (10 * MB)%N)
                  (pick sized_file
                     (events (process_and_transcribe "talk.mp3"
                                (audio_world (10 * MB)%N 600) [] tt))))
    by (vm_compute; left; reflexivity).
  assert (Hsmall : (10 * MB <= 26214400)%N) by (vm_compute; discriminate).
  assert (Htext : In "[talk.mp3]"
                    (pick transcription_text
                       (events (process_and_transcribe "talk.mp3"
                                  (audio_world (10 * MB)%N 600) [] tt))))
    by (vm_compute; left; reflexivity).
  split; [exact Hin|split; [exact Hsmall|split; [exact Htext|]]].
  exact (proj1 (@small_file_transcript_is_the_answer unit "talk.mp3"
                  (audio_world (10 * MB)%N 600) [] tt "talk.mp3" (10 * MB)%N
                  "[talk.mp3]" Hin Hsmall Htext)).
Defined.

Lemma handler_delivers_the_transcript_witness :
  let run := process_and_transcribe "talk.mp3" chat_down [] tt in
  let o := upload_run "talk.mp3" true chat_down [] tt in
  result run = inr (Some "[talk.mp3]") /\
  "[talk.mp3]" <> EmptyString /\
  pick chat_answer (events o) = [] /\
  result o = inr (Some "[talk.mp3]") /\
  pick download_data (events o) = ["[talk.mp3]"].
Proof.
  cbv zeta.
  assert (Hrun : result (process_and_transcribe "talk.mp3" chat_down [] tt) =
                 inr (Some "[talk.mp3]")) by (vm_compute; reflexivity).
  assert (Hne : "[talk.mp3]" <> EmptyString) by discriminate.
  assert (Hchat : pick chat_answer (events (upload_run "talk.mp3" true chat_down [] tt))
                  = []) by (vm_compute; reflexivity).
  destruct (@handler_delivers_the_transcript "talk.mp3" true chat_down []
              "[talk.mp3]" Hrun Hne) as (_ & _ & Hraw & _).
  split; [exact Hrun|split; [exact Hne|split; [exact Hchat|]]].
  exact (Hraw Hchat).
Defined.

(** The stdout fault of the first write, with the file written all the
    same: extraction counts as done and the run goes on to transcribe. *)
Example swallowed_stdout_fault :
  let o := process_and_transcribe "clip.mp4" (noisy_extraction true) [] tt in
  pick audio_write_request (events o) = [("clip.mp4.mp3", true)] /\
  result o = inr (Some "[clip.mp4.mp3]") /\
  pick error_shown (events o) = [].
Proof. cbv zeta. repeat apply conj; vm_compute; reflexivity. Qed.

(** The same fault with no file written: one more write, default logger. *)
Example fallback_write_after_stdout_fault :
  let o := process_and_transcribe "clip.mp4" (noisy_extraction false) [] tt in
  pick audio_write_request (events o) =
    [("clip.mp4.mp3", true); ("clip.mp4.mp3", false)] /\
  result o = inr (Some "[clip.mp4.mp3]").
Proof. cbv zeta. repeat apply conj; vm_compute; reflexivity. Qed.
